(** * Library circulation: a shallow embedding of [library_cli.py]

    The program keeps three tables (books, members, borrow_records) in a
    remote store and manipulates them through a table client.  Every
    function of the program is embedded as a pure function over an explicit
    [Store]; a function that prints a message and returns is embedded with a
    result type that names the message. *)

From Stdlib Require Import ZArith List String Bool Lia Sorted Permutation.
Import ListNotations.
Open Scope Z_scope.

(** ** Data model *)

(** Modelled from the spec: the table declarations are not part of the
    source file; the columns are the ones the source reads and writes
    (book_id, title, author, category, stock; member_id, name, email;
    record_id, member_id, book_id, borrow_date, return_date), with the types
    the spec gives them.  A null [return_date] is [None]. *)
Record Book := mkBook {
  book_id : Z;
  title : string;
  author : string;
  category : string;
  stock : Z
}.

Record Member := mkMember {
  member_id : Z;
  name : string;
  email : string
}.

Record BorrowRecord := mkBorrowRecord {
  record_id : Z;
  rec_member_id : Z;
  rec_book_id : Z;
  borrow_date : Z;
  return_date : option Z
}.

(** Modelled from the spec: the store behind the client [sb].  A table is the
    list of its rows in the order in which a select without an ordering
    returns them; an insert appends a row whose id is the table's next free
    id and whose [borrow_date] is the store's clock; the store does not
    check any constraint between tables. *)
Record Store := mkStore {
  books : list Book;
  members : list Member;
  borrow_records : list BorrowRecord;
  next_book_id : Z;
  next_member_id : Z;
  next_record_id : Z;
  clock : Z
}.

Definition set_books (s : Store) (l : list Book) : Store :=
  mkStore l (members s) (borrow_records s)
          (next_book_id s) (next_member_id s) (next_record_id s) (clock s).

Definition set_members (s : Store) (l : list Member) : Store :=
  mkStore (books s) l (borrow_records s)
          (next_book_id s) (next_member_id s) (next_record_id s) (clock s).

Definition set_borrow_records (s : Store) (l : list BorrowRecord) : Store :=
  mkStore (books s) (members s) l
          (next_book_id s) (next_member_id s) (next_record_id s) (clock s).

Definition is_open (r : BorrowRecord) : bool :=
  match return_date r with None => true | Some _ => false end.


(** ** The table client

    One definition per query the program builds with
    [sb.table(..).select/insert/update/delete(..).eq(..).execute()]. *)
Module Gateway.

(** [table("books").select(..).eq("book_id", bid)] *)
Definition select_books (s : Store) (bid : Z) : list Book :=
  filter (fun b => book_id b =? bid) (books s).

(** [table("books").insert({title, author, category, stock})] *)
Definition insert_book (s : Store) (t a c : string) (st : Z)
  : list Book * Store :=
  let row := mkBook (next_book_id s) t a c st in
  ([row],
   mkStore (books s ++ [row]) (members s) (borrow_records s)
           (next_book_id s + 1) (next_member_id s) (next_record_id s)
           (clock s)).

(** [table("members").insert({name, email})] *)
Definition insert_member (s : Store) (n e : string)
  : list Member * Store :=
  let row := mkMember (next_member_id s) n e in
  ([row],
   mkStore (books s) (members s ++ [row]) (borrow_records s)
           (next_book_id s) (next_member_id s + 1) (next_record_id s)
           (clock s)).

Definition with_stock (v : Z) (b : Book) : Book :=
  mkBook (book_id b) (title b) (author b) (category b) v.

(** [table("books").update({"stock": v}).eq("book_id", bid)]: an
    unconditional write of [v] to every row with that id. *)
Definition update_stock (s : Store) (bid v : Z) : list Book * Store :=
  let upd b := if book_id b =? bid then with_stock v b else b in
  (map (with_stock v) (select_books s bid),
   set_books s (map upd (books s))).

Definition with_email (e : string) (m : Member) : Member :=
  mkMember (member_id m) (name m) e.

(** [table("members").update({"email": e}).eq("member_id", mid)].  The
    source asks for no order, and where the store lists a row after it was
    updated is the store's business: the row is kept at its place here, and
    what is proved of an update does not depend on that place. *)
Definition update_email (s : Store) (mid : Z) (e : string)
  : list Member * Store :=
  let upd m := if member_id m =? mid then with_email e m else m in
  (map (with_email e) (filter (fun m => member_id m =? mid) (members s)),
   set_members s (map upd (members s))).

(** [table("borrow_records").select("*").eq("member_id", mid)
      .is_("return_date", None)] *)
Definition open_by_member (s : Store) (mid : Z) : list BorrowRecord :=
  filter (fun r => (rec_member_id r =? mid) && is_open r)
         (borrow_records s).

(** [table("borrow_records").select("*").eq("book_id", bid)
      .is_("return_date", None)] *)
Definition open_by_book (s : Store) (bid : Z) : list BorrowRecord :=
  filter (fun r => (rec_book_id r =? bid) && is_open r)
         (borrow_records s).

Definition open_for (mid bid : Z) (r : BorrowRecord) : bool :=
  (rec_member_id r =? mid) && (rec_book_id r =? bid) && is_open r.

(** [table("borrow_records").select("*").eq("member_id", mid)
      .eq("book_id", bid).is_("return_date", None).limit(1)] *)
Definition open_by_pair_limit1 (s : Store) (mid bid : Z)
  : list BorrowRecord :=
  firstn 1 (filter (open_for mid bid) (borrow_records s)).

(** [table("members").delete().eq("member_id", mid)] *)
Definition delete_members (s : Store) (mid : Z) : Store :=
  set_members s (filter (fun m => negb (member_id m =? mid)) (members s)).

(** [table("books").delete().eq("book_id", bid)] *)
Definition delete_books (s : Store) (bid : Z) : Store :=
  set_books s (filter (fun b => negb (book_id b =? bid)) (books s)).

(** [table("borrow_records").insert({member_id, book_id})]: the record id,
    the borrow date and the null return date are the table's defaults. *)
Definition insert_borrow_record (s : Store) (mid bid : Z) : Store :=
  let row := mkBorrowRecord (next_record_id s) mid bid (clock s) None in
  mkStore (books s) (members s) (borrow_records s ++ [row])
          (next_book_id s) (next_member_id s) (next_record_id s + 1)
          (clock s).

Definition close_at (t : Z) (r : BorrowRecord) : BorrowRecord :=
  mkBorrowRecord (record_id r) (rec_member_id r) (rec_book_id r)
                 (borrow_date r) (Some t).

(** [table("borrow_records").update({"return_date": "now()"})
      .eq("record_id", rid)] *)
Definition close_if (rid t : Z) (r : BorrowRecord) : BorrowRecord :=
  if record_id r =? rid then close_at t r else r.

Definition update_return_date (s : Store) (rid : Z) : Store :=
  set_borrow_records s (map (close_if rid (clock s)) (borrow_records s)).

(** [table("borrow_records").select("book_id, books(title, author)")]:
    every record with the book row its [book_id] refers to, null when
    there is none. *)
Definition select_with_book (s : Store)
  : list (Z * option (string * string)) :=
  map (fun r =>
         (rec_book_id r,
          match select_books s (rec_book_id r) with
          | b :: _ => Some (title b, author b)
          | [] => None
          end))
      (borrow_records s).

End Gateway.

(** ** Create / insert helpers *)

Definition add_member (s : Store) (n e : string) : list Member * Store :=
  Gateway.insert_member s n e.

(** [stock] is a keyword argument with default [1]: [None] is the call that
    leaves it out. *)
Definition add_book (s : Store) (t a c : string) (stock_arg : option Z)
  : list Book * Store :=
  let st := match stock_arg with Some v => v | None => 1 end in
  Gateway.insert_book s t a c st.

(** ** Update functions *)

Definition update_book_stock (s : Store) (bid new_stock : Z)
  : list Book * Store :=
  Gateway.update_stock s bid new_stock.

Definition update_member_email (s : Store) (mid : Z) (e : string)
  : list Member * Store :=
  Gateway.update_email s mid e.

(** ** Delete functions *)

Inductive delete_result :=
| CannotDelete   (* "Cannot delete ...": the function returns early *)
| Deleted.       (* "... deleted." *)

Definition delete_member (s : Store) (mid : Z) : delete_result * Store :=
  match Gateway.open_by_member s mid with
  | _ :: _ => (CannotDelete, s)
  | [] => (Deleted, Gateway.delete_members s mid)
  end.

Definition delete_book (s : Store) (bid : Z) : delete_result * Store :=
  match Gateway.open_by_book s bid with
  | _ :: _ => (CannotDelete, s)
  | [] => (Deleted, Gateway.delete_books s bid)
  end.

(** ** Borrow / return *)

Inductive borrow_result :=
| BookNotFound        (* "Book not found." *)
| BookNotAvailable    (* "Book not available." *)
| BorrowSuccessful    (* "Borrow successful: ..." *)
| BorrowRaised.       (* the insert raised; nothing catches it *)

(** [insert_ok] tells whether the store accepts the insert of the borrow
    record; when it does not, [execute()] raises and the exception leaves
    [borrow_book] at that line. *)
Definition borrow_book_gw (insert_ok : bool) (s : Store) (mid bid : Z)
  : borrow_result * Store :=
  match Gateway.select_books s bid with
  | [] => (BookNotFound, s)
  | b :: _ =>
      if stock b <=? 0 then (BookNotAvailable, s)
      else
        let s1 := snd (Gateway.update_stock s bid (stock b - 1)) in
        if insert_ok
        then (BorrowSuccessful, Gateway.insert_borrow_record s1 mid bid)
        else (BorrowRaised, s1)
  end.

Definition borrow_book : Store -> Z -> Z -> borrow_result * Store :=
  borrow_book_gw true.

Inductive return_result :=
| NoActiveBorrow              (* "No active borrow found." *)
| ReturnSuccessful (rid : Z)  (* "Return successful: record rid" *)
| ReturnRaised.               (* [.data[0]] on an empty list: IndexError *)

Definition return_book (s : Store) (mid bid : Z) : return_result * Store :=
  match Gateway.open_by_pair_limit1 s mid bid with
  | [] => (NoActiveBorrow, s)
  | r :: _ =>
      let rec_id := record_id r in
      let s1 := Gateway.update_return_date s rec_id in
      match Gateway.select_books s1 bid with
      | [] => (ReturnRaised, s1)
      | b :: _ =>
          (ReturnSuccessful rec_id,
           snd (Gateway.update_stock s1 bid (stock b + 1)))
      end
  end.

(** ** Reports *)

(** The dictionary key of [report_top_borrowed]: (book_id, title, author). *)
Definition report_key : Type := Z * string * string.

Definition key_eqb (k1 k2 : report_key) : bool :=
  match k1, k2 with
  | (i1, t1, a1), (i2, t2, a2) =>
      (i1 =? i2) && String.eqb t1 t2 && String.eqb a1 a2
  end.

(** [counts[key] = counts.get(key, 0) + 1] on a dictionary that keeps its
    keys in insertion order: a key already present keeps its place, a new
    key goes last. *)
Fixpoint bump (k : report_key) (counts : list (report_key * Z))
  : list (report_key * Z) :=
  match counts with
  | [] => [(k, 0 + 1)]
  | (k', c) :: rest =>
      if key_eqb k' k then (k', c + 1) :: rest else (k', c) :: bump k rest
  end.

(** The counting loop; [None] is the TypeError of [b["title"]] on a record
    whose joined book is null. *)
Fixpoint count_rows (rows : list (Z * option (string * string)))
         (counts : list (report_key * Z)) : option (list (report_key * Z)) :=
  match rows with
  | [] => Some counts
  | (bid, Some (t, a)) :: rest => count_rows rest (bump (bid, t, a) counts)
  | (_, None) :: _ => None
  end.

(** [sorted(items, key=lambda x: x[1], reverse=True)]: the sort is stable,
    also under [reverse=True], so items with equal counts keep their order.
    Every stable sort computes the same list; this one inserts each item
    before the first item whose count is not larger. *)
Fixpoint insert_desc (x : report_key * Z) (l : list (report_key * Z))
  : list (report_key * Z) :=
  match l with
  | [] => [x]
  | y :: l' => if snd y <=? snd x then x :: y :: l' else y :: insert_desc x l'
  end.

Definition sorted_desc (l : list (report_key * Z)) : list (report_key * Z) :=
  fold_right insert_desc [] l.

(** The slice [l[:limit]], a negative [limit] counting from the end. *)
Definition slice_to {A : Type} (limit : Z) (l : list A) : list A :=
  if 0 <=? limit then firstn (Z.to_nat limit) l
  else firstn (Z.to_nat (Z.of_nat (List.length l) + limit)) l.

(** The rows that [report_top_borrowed] prints, in the order it prints them;
    [limit] is a keyword argument with default [5]. *)
Definition report_top_borrowed (s : Store) (limit_arg : option Z)
  : option (list (report_key * Z)) :=
  let limit := match limit_arg with Some n => n | None => 5 end in
  match count_rows (Gateway.select_with_book s) [] with
  | None => None
  | Some counts => Some (slice_to limit (sorted_desc counts))
  end.

(** ** The menu as a sequence of operations

    The menu choices that change the store, with the arguments the menu
    reads for them. *)
Inductive op :=
| OpAddMember (n e : string)
| OpAddBook (t a c : string) (st : option Z)
| OpUpdateStock (bid v : Z)
| OpUpdateEmail (mid : Z) (e : string)
| OpDeleteMember (mid : Z)
| OpDeleteBook (bid : Z)
| OpBorrow (insert_ok : bool) (mid bid : Z)
| OpReturn (mid bid : Z).

Definition run_op (o : op) (s : Store) : Store :=
  match o with
  | OpAddMember n e => snd (add_member s n e)
  | OpAddBook t a c st => snd (add_book s t a c st)
  | OpUpdateStock bid v => snd (update_book_stock s bid v)
  | OpUpdateEmail mid e => snd (update_member_email s mid e)
  | OpDeleteMember mid => snd (delete_member s mid)
  | OpDeleteBook bid => snd (delete_book s bid)
  | OpBorrow ok mid bid => snd (borrow_book_gw ok s mid bid)
  | OpReturn mid bid => snd (return_book s mid bid)
  end.

Definition run_ops (ops : list op) (s : Store) : Store :=
  fold_left (fun st o => run_op o st) ops s.

(** ** Two callers of [borrow_book] on one store

    [borrow_book] makes three calls to the store: the select of line 85, the
    update of line 92 and the insert of line 93.  Each call is one step; the
    store serves the calls of two callers in the order of a schedule. *)
Module Interleaving.

Inductive borrow_pc :=
| AtSelect                       (* before line 85 *)
| AtUpdate (seen : Z)            (* before line 92, [seen] = book[0]["stock"] *)
| AtInsert                       (* before line 93 *)
| Finished (res : borrow_result).

Definition borrow_step (mid bid : Z) (pc : borrow_pc) (s : Store)
  : borrow_pc * Store :=
  match pc with
  | AtSelect =>
      match Gateway.select_books s bid with
      | [] => (Finished BookNotFound, s)
      | b :: _ =>
          if stock b <=? 0 then (Finished BookNotAvailable, s)
          else (AtUpdate (stock b), s)
      end
  | AtUpdate seen => (AtInsert, snd (Gateway.update_stock s bid (seen - 1)))
  | AtInsert => (Finished BorrowSuccessful,
                 Gateway.insert_borrow_record s mid bid)
  | Finished r => (Finished r, s)
  end.

Fixpoint run_one (n : nat) (mid bid : Z) (pc : borrow_pc) (s : Store)
  : borrow_pc * Store :=
  match n with
  | O => (pc, s)
  | S n' => let '(pc', s') := borrow_step mid bid pc s in
            run_one n' mid bid pc' s'
  end.

Inductive caller := CallerA | CallerB.

Record config := mkConfig {
  pcA : borrow_pc;
  pcB : borrow_pc;
  shared : Store
}.

Definition step_two (midA midB bid : Z) (who : caller) (c : config)
  : config :=
  match who with
  | CallerA => let '(pc', s') := borrow_step midA bid (pcA c) (shared c) in
               mkConfig pc' (pcB c) s'
  | CallerB => let '(pc', s') := borrow_step midB bid (pcB c) (shared c) in
               mkConfig (pcA c) pc' s'
  end.

Definition run_two (midA midB bid : Z) (sched : list caller) (s : Store)
  : config :=
  fold_left (fun c who => step_two midA midB bid who c) sched
            (mkConfig AtSelect AtSelect s).

End Interleaving.

(** ** Observations on a store *)

(** The stock that a select by id reads: that of the first row with the id. *)
Definition stock_of (s : Store) (bid : Z) : option Z :=
  match Gateway.select_books s bid with
  | b :: _ => Some (stock b)
  | [] => None
  end.

Definition stock_nonneg (s : Store) : Prop :=
  Forall (fun b => 0 <= stock b) (books s).

Definition for_pair (mid bid : Z) (r : BorrowRecord) : bool :=
  (rec_member_id r =? mid) && (rec_book_id r =? bid).

Definition open_records (s : Store) (mid bid : Z) : list BorrowRecord :=
  filter (fun r => for_pair mid bid r && is_open r) (borrow_records s).


(** Record ids are a primary key, and the next id handed out is fresh. *)
Definition record_ids_ok (s : Store) : Prop :=
  NoDup (map record_id (borrow_records s)) /\
  Forall (fun r => record_id r < next_record_id s) (borrow_records s).

(** The compare-and-swap of the spec, for comparison with
    [Gateway.update_stock]: the write takes effect only when the stock read
    by a select still equals [expected]. *)
Definition cas_stock (s : Store) (bid expected v : Z) : bool * Store :=
  match stock_of s bid with
  | Some cur =>
      if cur =? expected then (true, snd (Gateway.update_stock s bid v))
      else (false, s)
  | None => (false, s)
  end.

(** [k1] first shows up among [keys] before [k2] does. *)
Definition first_seen_before {A : Type} (keys : list A) (k1 k2 : A) : Prop :=
  exists l1 l2, keys = l1 ++ k1 :: l2 /\ ~ In k1 l1 /\ ~ In k2 l1 /\ k1 <> k2.

(** Every record's book is in the books table. *)
Definition records_joinable (s : Store) : Prop :=
  Forall (fun r => Gateway.select_books s (rec_book_id r) <> [])
         (borrow_records s).

(** A small store used in examples: two members, one book with stock 1. *)
Definition store1 : Store :=
  mkStore [mkBook 1 "Dune"%string "Herbert"%string "scifi"%string 1]
          [mkMember 1 "Ann"%string "ann@example.org"%string;
           mkMember 2 "Bob"%string "bob@example.org"%string]
          [] 2 3 1 100.

(** [store1] after an earlier loan of book 1 to member 1, returned since. *)
Definition store_history : Store :=
  mkStore (books store1) (members store1)
          [mkBorrowRecord 1 1 1 50 (Some 60)] 2 3 2 100.

(** Two open records for the pair (1, 1); the one the store lists first was
    borrowed later. *)
Definition store_two_open : Store :=
  mkStore [mkBook 1 "Dune"%string "Herbert"%string "scifi"%string 0]
          (members store1)
          [mkBorrowRecord 1 1 1 20 None; mkBorrowRecord 2 1 1 10 None]
          2 3 3 100.

(** Three books; book 2 was borrowed three times, then book 1 three times,
    then book 3 once. *)
Definition store_report : Store :=
  mkStore [mkBook 1 "Dune"%string "Herbert"%string "scifi"%string 5;
           mkBook 2 "Emma"%string "Austen"%string "novel"%string 5;
           mkBook 3 "Ulysses"%string "Joyce"%string "novel"%string 5]
          (members store1)
          [mkBorrowRecord 1 1 2 10 (Some 11);
           mkBorrowRecord 2 2 2 12 (Some 13);
           mkBorrowRecord 3 1 2 14 None;
           mkBorrowRecord 4 1 1 15 (Some 16);
           mkBorrowRecord 5 2 1 17 (Some 18);
           mkBorrowRecord 6 1 1 19 None;
           mkBorrowRecord 7 2 3 20 None]
          4 3 8 100.

(** The book id of a line of the report. *)
Definition bid_of (e : report_key * Z) : Z := fst (fst (fst e)).

(** The dictionary key under which the records of book [bid] are counted. *)
Definition key_of (s : Store) (bid : Z) : report_key :=
  match Gateway.select_books s bid with
  | b :: _ => (bid, title b, author b)
  | [] => (bid, EmptyString, EmptyString)
  end.

(** [counts.get(k, 0)] *)
Fixpoint get_count (k : report_key) (counts : list (report_key * Z)) : Z :=
  match counts with
  | [] => 0
  | (k', c) :: rest => if key_eqb k' k then c else get_count k rest
  end.

(** The dictionary that the counting loop builds from a list of keys. *)
Definition count_keys (ks : list report_key) : list (report_key * Z) :=
  fold_left (fun acc k => bump k acc) ks [].

(** Larger count first; among equal counts, the order [R]. *)
Definition by_count_then (R : report_key * Z -> report_key * Z -> Prop)
           (x y : report_key * Z) : Prop :=
  snd y < snd x \/ (snd x = snd y /\ R x y).

(** The order of the report as the code produces it: larger count first,
    and among equal counts the book whose first record comes first. *)
Definition by_count_then_first_seen (ids : list Z)
  : report_key * Z -> report_key * Z -> Prop :=
  by_count_then (fun x y => first_seen_before ids (bid_of x) (bid_of y)).

(** The stock that an operation is asked to write is not negative. *)
Definition op_stock_arg_nonneg (o : op) : Prop :=
  match o with
  | OpAddBook _ _ _ (Some v) => 0 <= v
  | OpUpdateStock _ v => 0 <= v
  | _ => True
  end.

(** ** Read / query functions *)

(** What a read function prints: the table of the rows it got, or the text
    it prints instead when it got none
    ([tabulate(rows, ...) if rows else text]). *)
Inductive printed (A : Type) : Type :=
| Table (rows : list A)
| Text (msg : string).

Arguments Table {A} rows.
Arguments Text {A} msg.

Definition table_or {A : Type} (rows : list A) (msg : string) : printed A :=
  match rows with
  | [] => Text msg
  | _ :: _ => Table rows
  end.

Definition list_books (s : Store) : printed Book :=
  table_or (books s) "(no books)".

(** The columns [record_id, book_id, borrow_date, return_date] that
    [show_member] selects. *)
Definition history_row : Type := Z * Z * Z * option Z.

(** [table("members").select("*").eq("member_id", mid)] *)
Definition select_member (s : Store) (mid : Z) : list Member :=
  filter (fun m => member_id m =? mid) (members s).

(** [table("borrow_records").select("record_id, book_id, borrow_date,
    return_date").eq("member_id", mid)] *)
Definition select_history (s : Store) (mid : Z) : list history_row :=
  map (fun r => (record_id r, rec_book_id r, borrow_date r, return_date r))
      (filter (fun r => rec_member_id r =? mid) (borrow_records s)).

(** The two parts that [show_member] prints: the member and the borrow
    history. *)
Definition show_member (s : Store) (mid : Z)
  : printed Member * printed history_row :=
  (table_or (select_member s mid) "Not found",
   table_or (select_history s mid) "(no borrow history)").

(** ** Reports written in SQL

    [report_overdue_members] and [report_borrows_per_member] send a query
    text to the store; the definitions compute the rows of the query.  SQL
    leaves the order of the rows open where the query does not order them:
    the lists below have the order of the nested loops, and the properties
    proved of them do not depend on it. *)

(** The columns [member_id, name, email, title, borrow_date] of the overdue
    report. *)
Definition overdue_row : Type := Z * string * string * string * Z.

(** [WHERE return_date IS NULL AND borrow_date < NOW() - INTERVAL '14 days'];
    [day] is the length of a day in the unit of the store's clock. *)
Definition overdue_where (day : Z) (s : Store) (r : BorrowRecord) : bool :=
  is_open r && (borrow_date r <? clock s - 14 * day).

(** The rows that one borrow record gives:
    [JOIN members ON .. JOIN books ON .. WHERE ..] *)
Definition overdue_rows_of (day : Z) (s : Store) (r : BorrowRecord)
  : list overdue_row :=
  flat_map
    (fun m =>
       flat_map
         (fun b =>
            if overdue_where day s r
            then [(member_id m, name m, email m, title b, borrow_date r)]
            else [])
         (Gateway.select_books s (rec_book_id r)))
    (select_member s (rec_member_id r)).

(** [FROM borrow_records JOIN members ON .. JOIN books ON .. WHERE ..] *)
Definition overdue_query (day : Z) (s : Store) : list overdue_row :=
  flat_map (overdue_rows_of day s) (borrow_records s).

Definition report_overdue_members (day : Z) (s : Store)
  : printed overdue_row :=
  table_or (overdue_query day s) "(no overdue)".

(** The grouping columns [member_id, name] of the report per member. *)
Definition member_key : Type := Z * string.

Definition member_key_eq_dec (k1 k2 : member_key) : {k1 = k2} + {k1 <> k2}.
Proof.
  decide equality; [apply string_dec | apply Z.eq_dec].
Defined.

(** [FROM borrow_records JOIN members ON ..]: the grouping columns of every
    row of the join. *)
Definition joined_member_keys (s : Store) : list member_key :=
  flat_map
    (fun r => map (fun m => (member_id m, name m))
                  (select_member s (rec_member_id r)))
    (borrow_records s).

(** [ORDER BY total_borrows DESC] *)
Fixpoint insert_total (x : member_key * Z) (l : list (member_key * Z))
  : list (member_key * Z) :=
  match l with
  | [] => [x]
  | y :: l' =>
      if snd y <=? snd x then x :: y :: l' else y :: insert_total x l'
  end.

Definition order_by_total_desc (l : list (member_key * Z))
  : list (member_key * Z) :=
  fold_right insert_total [] l.

(** [SELECT member_id, name, COUNT(record_id) AS total_borrows ..
    GROUP BY member_id, name ORDER BY total_borrows DESC] *)
Definition borrows_per_member_query (s : Store)
  : list (member_key * Z) :=
  order_by_total_desc
    (map (fun k =>
            (k, Z.of_nat (count_occ member_key_eq_dec
                                    (joined_member_keys s) k)))
         (nodup member_key_eq_dec (joined_member_keys s))).

Definition report_borrows_per_member (s : Store)
  : printed (member_key * Z) :=
  table_or (borrows_per_member_query s) "(no borrows)".

(** ** Further observations *)

(** The number of copies of a book that are out: its open records. *)
Definition on_loan (s : Store) (bid : Z) : Z :=
  Z.of_nat (List.length (Gateway.open_by_book s bid)).

(** The operations of the circulation desk: borrow (the insert going
    through) and return. *)
Definition is_circulation (o : op) : Prop :=
  match o with
  | OpBorrow true _ _ => True
  | OpReturn _ _ => True
  | _ => False
  end.

(** A caller about to write holds a stock that passed the check of
    line 89. *)
Definition pc_ok (pc : Interleaving.borrow_pc) : Prop :=
  match pc with
  | Interleaving.AtUpdate seen => 0 < seen
  | _ => True
  end.

(** Member ids are a primary key. *)
Definition member_ids_ok (s : Store) : Prop :=
  NoDup (map member_id (members s)).

(** * Properties *)

(** ** Facts about the table client *)

Lemma select_books_nil (s : Store) (bid : Z) :
  Gateway.select_books s bid = [] <->
  (forall b, In b (books s) -> book_id b <> bid).
Proof.
  unfold Gateway.select_books. split.
  - intros Hnil b Hin Heq.
    assert (Hb : In b (filter (fun b0 => book_id b0 =? bid) (books s))).
    { apply filter_In. split; [exact Hin | now apply Z.eqb_eq]. }
    rewrite Hnil in Hb. exact Hb.
  - intros Hall. induction (books s) as [|b l IH]; simpl; [reflexivity|].
    destruct (book_id b =? bid) eqn:E.
    + apply Z.eqb_eq in E. exfalso. apply (Hall b); [now left | exact E].
    + apply IH. intros b' Hin. apply Hall. now right.
Qed.

Lemma select_books_head (s : Store) (bid : Z) (b : Book) (l : list Book) :
  Gateway.select_books s bid = b :: l -> In b (books s) /\ book_id b = bid.
Proof.
  unfold Gateway.select_books. intros H.
  assert (Hb : In b (filter (fun b0 => book_id b0 =? bid) (books s))).
  { rewrite H. now left. }
  apply filter_In in Hb. destruct Hb as [Hin Hid].
  split; [exact Hin | now apply Z.eqb_eq].
Qed.

(** After the update, a select by the same id reads the written value. *)
Lemma select_after_update (l : list Book) (bid v : Z) :
  filter (fun b => book_id b =? bid)
         (map (fun b => if book_id b =? bid
                        then Gateway.with_stock v b else b) l)
  = map (Gateway.with_stock v) (filter (fun b => book_id b =? bid) l).
Proof.
  induction l as [|b l IH]; simpl; [reflexivity|].
  destruct (book_id b =? bid) eqn:E; simpl; rewrite ?E, IH; reflexivity.
Qed.

(** A select by another id does not see the update. *)
Lemma select_other_after_update (l : list Book) (bid bid' v : Z) :
  bid' <> bid ->
  filter (fun b => book_id b =? bid')
         (map (fun b => if book_id b =? bid
                        then Gateway.with_stock v b else b) l)
  = filter (fun b => book_id b =? bid') l.
Proof.
  intros Hne. induction l as [|b l IH]; simpl; [reflexivity|].
  destruct (book_id b =? bid) eqn:E; simpl.
  - apply Z.eqb_eq in E.
    assert (E' : (book_id b =? bid') = false) by (apply Z.eqb_neq; lia).
    rewrite E'. exact IH.
  - destruct (book_id b =? bid'); rewrite IH; reflexivity.
Qed.

Lemma stock_of_update_same (s : Store) (bid v : Z) :
  stock_of s bid <> None ->
  stock_of (snd (Gateway.update_stock s bid v)) bid = Some v.
Proof.
  unfold stock_of, Gateway.update_stock, Gateway.select_books. simpl.
  rewrite select_after_update.
  destruct (filter (fun b => book_id b =? bid) (books s)); simpl.
  - intros H. now contradiction H.
  - reflexivity.
Qed.

Lemma stock_of_update_other (s : Store) (bid bid' v : Z) :
  bid' <> bid ->
  stock_of (snd (Gateway.update_stock s bid v)) bid' = stock_of s bid'.
Proof.
  intros Hne. unfold stock_of, Gateway.update_stock, Gateway.select_books.
  simpl. now rewrite select_other_after_update.
Qed.

Lemma stock_of_some (s : Store) (bid v : Z) :
  stock_of s bid = Some v ->
  exists b l, Gateway.select_books s bid = b :: l /\ stock b = v.
Proof.
  unfold stock_of. destruct (Gateway.select_books s bid) as [|b l].
  - discriminate.
  - intros H. injection H as H. now exists b, l.
Qed.

(** ** Adding a book *)

(** C10: [add_book] called without a stock argument creates the book with
    stock 1, the default of the keyword argument, not 0: the row returned
    and the row appended to the books table both carry stock 1. *)
Theorem add_book_default_stock (s : Store) (t a c : string) :
  let new_row := mkBook (next_book_id s) t a c 1 in
  fst (add_book s t a c None) = [new_row] /\
  books (snd (add_book s t a c None)) = books s ++ [new_row] /\
  stock new_row = 1.
Proof.
  simpl. repeat split.
Qed.

(** ** Updating the stock *)

(** C7, as the code has it: [update_book_stock] never refuses a value.  It
    writes [new_stock], whatever its sign, as the stock of the book, and
    leaves the stock of every other book as it was. *)
Theorem update_book_stock_writes_any (s : Store) (bid new_stock : Z) :
  (stock_of s bid <> None ->
   stock_of (snd (update_book_stock s bid new_stock)) bid = Some new_stock) /\
  (forall bid', bid' <> bid ->
     stock_of (snd (update_book_stock s bid new_stock)) bid'
     = stock_of s bid') /\
  borrow_records (snd (update_book_stock s bid new_stock)) = borrow_records s.
Proof.
  unfold update_book_stock. split; [|split].
  - apply stock_of_update_same.
  - intros bid' Hne. now apply stock_of_update_other.
  - reflexivity.
Qed.

Lemma update_book_stock_writes_any_witness :
  stock_of store1 1 <> None /\
  stock_of (snd (update_book_stock store1 1 (-5))) 1 = Some (-5).
Proof.
  split.
  - discriminate.
  - apply (update_book_stock_writes_any store1 1 (-5)). discriminate.
Defined.

(** C7 as stated fails: asked to write -5, [update_book_stock] does not
    leave the stock of 1 in place; the book ends with stock -5. *)
Lemma update_book_stock_negative_counterexample :
  -5 < 0 /\
  stock_of store1 1 = Some 1 /\
  stock_of (snd (update_book_stock store1 1 (-5))) 1 = Some (-5) /\
  stock_of (snd (update_book_stock store1 1 (-5))) 1 <> stock_of store1 1.
Proof.
  repeat split; try reflexivity; discriminate.
Qed.

(** ** Borrowing *)

Lemma borrow_not_found (ok : bool) (s : Store) (mid bid : Z) :
  (forall b, In b (books s) -> book_id b <> bid) ->
  borrow_book_gw ok s mid bid = (BookNotFound, s).
Proof.
  intros Hnone. apply select_books_nil in Hnone.
  unfold borrow_book_gw. now rewrite Hnone.
Qed.

Lemma borrow_unavailable (ok : bool) (s : Store) (mid bid v : Z) :
  stock_of s bid = Some v -> v <= 0 ->
  borrow_book_gw ok s mid bid = (BookNotAvailable, s).
Proof.
  intros Hv Hle. apply stock_of_some in Hv.
  destruct Hv as (b & l & Hsel & Hst).
  unfold borrow_book_gw. rewrite Hsel.
  assert (E : (stock b <=? 0) = true) by (apply Z.leb_le; lia).
  now rewrite E.
Qed.

(** C9: when [borrow_book] finds no book with the id, or reads a stock that
    is not positive, it returns before any write: the store it leaves is the
    store it was given, with the same stocks and the same borrow records.
    Conversely, whenever it reports one of these two failures the store is
    unchanged. *)
Theorem borrow_failure_store_unchanged
        (ok : bool) (s : Store) (mid bid : Z) :
  ((forall b, In b (books s) -> book_id b <> bid) ->
   borrow_book_gw ok s mid bid = (BookNotFound, s)) /\
  (forall v, stock_of s bid = Some v -> v <= 0 ->
   borrow_book_gw ok s mid bid = (BookNotAvailable, s)) /\
  (forall r s', borrow_book_gw ok s mid bid = (r, s') ->
   r = BookNotFound \/ r = BookNotAvailable -> s' = s).
Proof.
  split; [|split].
  - apply borrow_not_found.
  - intros v. apply borrow_unavailable.
  - unfold borrow_book_gw. intros r s'. destruct (Gateway.select_books s bid) as [|b l].
    + intros H _. now inversion H.
    + destruct (stock b <=? 0).
      * intros H _. now inversion H.
      * destruct ok; intros H [Hr | Hr]; inversion H; subst; discriminate.
Qed.

Lemma borrow_failure_store_unchanged_witness :
  borrow_book store1 1 7 = (BookNotFound, store1) /\
  borrow_book (snd (update_book_stock store1 1 0)) 1 1
  = (BookNotAvailable, snd (update_book_stock store1 1 0)).
Proof.
  split.
  - apply (borrow_failure_store_unchanged true store1 1 7).
    simpl. intros b [Hb | []]. subst b. simpl. lia.
  - apply (borrow_failure_store_unchanged
             true (snd (update_book_stock store1 1 0)) 1 1)
      with (v := 0).
    + reflexivity.
    + lia.
Defined.

(** What a borrow that passes both checks does to the store. *)
Lemma borrow_book_gw_run (ok : bool) (s : Store) (mid bid : Z)
      (b : Book) (l : list Book) :
  Gateway.select_books s bid = b :: l -> 0 < stock b ->
  borrow_book_gw ok s mid bid =
  if ok
  then (BorrowSuccessful,
        Gateway.insert_borrow_record
          (snd (Gateway.update_stock s bid (stock b - 1))) mid bid)
  else (BorrowRaised, snd (Gateway.update_stock s bid (stock b - 1))).
Proof.
  intros Hsel Hpos. unfold borrow_book_gw. rewrite Hsel.
  assert (E : (stock b <=? 0) = false) by (apply Z.leb_gt; lia).
  rewrite E. destruct ok; reflexivity.
Qed.

Lemma stock_of_insert_borrow_record (s : Store) (mid bid bid' : Z) :
  stock_of (Gateway.insert_borrow_record s mid bid) bid' = stock_of s bid'.
Proof. reflexivity. Qed.

Lemma borrow_positive_stock (ok : bool) (s : Store) (mid bid v : Z) :
  stock_of s bid = Some v -> 0 < v ->
  fst (borrow_book_gw ok s mid bid)
  = (if ok then BorrowSuccessful else BorrowRaised) /\
  stock_of (snd (borrow_book_gw ok s mid bid)) bid = Some (v - 1) /\
  borrow_records (snd (borrow_book_gw ok s mid bid))
  = (if ok
     then borrow_records s
          ++ [mkBorrowRecord (next_record_id s) mid bid (clock s) None]
     else borrow_records s).
Proof.
  intros Hv Hpos.
  assert (Hsome : stock_of s bid <> None) by (rewrite Hv; discriminate).
  apply stock_of_some in Hv. destruct Hv as (b & l & Hsel & Hst).
  subst v. rewrite (borrow_book_gw_run ok s mid bid b l Hsel Hpos).
  destruct ok; simpl fst; simpl snd; repeat split.
  - rewrite stock_of_insert_borrow_record. now apply stock_of_update_same.
  - now apply stock_of_update_same.
Qed.

(** C3, as the code has it: when the stock decrement has been written and
    the insert of the borrow record fails, the error leaves [borrow_book]
    with the stock one below the value read and the borrow records as they
    were: nothing restores the stock.  When the insert succeeds the stock is
    one below the value read and one open record for the pair is appended. *)
Theorem borrow_insert_failure_keeps_decrement
        (s : Store) (mid bid v : Z) :
  stock_of s bid = Some v -> 0 < v ->
  (fst (borrow_book_gw false s mid bid) = BorrowRaised /\
   stock_of (snd (borrow_book_gw false s mid bid)) bid = Some (v - 1) /\
   borrow_records (snd (borrow_book_gw false s mid bid))
   = borrow_records s) /\
  (fst (borrow_book_gw true s mid bid) = BorrowSuccessful /\
   stock_of (snd (borrow_book_gw true s mid bid)) bid = Some (v - 1) /\
   borrow_records (snd (borrow_book_gw true s mid bid))
   = borrow_records s
     ++ [mkBorrowRecord (next_record_id s) mid bid (clock s) None]).
Proof.
  intros Hv Hpos. split.
  - exact (borrow_positive_stock false s mid bid v Hv Hpos).
  - exact (borrow_positive_stock true s mid bid v Hv Hpos).
Qed.

Lemma borrow_insert_failure_keeps_decrement_witness :
  fst (borrow_book_gw false store1 1 1) = BorrowRaised /\
  stock_of (snd (borrow_book_gw false store1 1 1)) 1 = Some 0 /\
  borrow_records (snd (borrow_book_gw false store1 1 1)) = [].
Proof.
  apply (borrow_insert_failure_keeps_decrement store1 1 1 1).
  - reflexivity.
  - lia.
Defined.

(** C3 as stated fails: with stock 1 and an insert that the store rejects,
    [borrow_book] ends with stock 0 and no open record for the pair. *)
Lemma borrow_no_compensation_counterexample :
  stock_of store1 1 = Some 1 /\
  fst (borrow_book_gw false store1 1 1) = BorrowRaised /\
  stock_of (snd (borrow_book_gw false store1 1 1)) 1 = Some 0 /\
  open_records (snd (borrow_book_gw false store1 1 1)) 1 1 = [].
Proof.
  repeat split.
Qed.

(** ** Deleting *)

Lemma filter_nil_iff {A : Type} (f : A -> bool) (l : list A) :
  filter f l = [] <-> (forall x, In x l -> f x = false).
Proof.
  split.
  - intros Hnil x Hin. destruct (f x) eqn:E; [|reflexivity].
    assert (Hx : In x (filter f l)) by (apply filter_In; now split).
    rewrite Hnil in Hx. destruct Hx.
  - intros Hall. induction l as [|x l IH]; simpl; [reflexivity|].
    rewrite (Hall x (or_introl eq_refl)). apply IH.
    intros y Hy. apply Hall. now right.
Qed.

Lemma open_by_book_some (s : Store) (bid : Z) :
  (exists r, In r (borrow_records s) /\
             rec_book_id r = bid /\ return_date r = None) <->
  Gateway.open_by_book s bid <> [].
Proof.
  unfold Gateway.open_by_book. split.
  - intros (r & Hin & Hb & Hopen) Hnil.
    rewrite filter_nil_iff in Hnil. specialize (Hnil r Hin).
    unfold is_open in Hnil. rewrite Hopen in Hnil.
    apply Z.eqb_eq in Hb. rewrite Hb in Hnil. discriminate.
  - intros Hne.
    destruct (filter (fun r => (rec_book_id r =? bid) && is_open r)
                     (borrow_records s)) as [|r l] eqn:E.
    + now contradiction Hne.
    + assert (Hr : In r (filter (fun r => (rec_book_id r =? bid) && is_open r)
                                (borrow_records s))) by (rewrite E; now left).
      apply filter_In in Hr. destruct Hr as [Hin Hf].
      apply andb_true_iff in Hf. destruct Hf as [Hb Ho].
      exists r. repeat split; [exact Hin | now apply Z.eqb_eq |].
      unfold is_open in Ho. now destruct (return_date r).
Qed.

Lemma open_by_member_some (s : Store) (mid : Z) :
  (exists r, In r (borrow_records s) /\
             rec_member_id r = mid /\ return_date r = None) <->
  Gateway.open_by_member s mid <> [].
Proof.
  unfold Gateway.open_by_member. split.
  - intros (r & Hin & Hb & Hopen) Hnil.
    rewrite filter_nil_iff in Hnil. specialize (Hnil r Hin).
    unfold is_open in Hnil. rewrite Hopen in Hnil.
    apply Z.eqb_eq in Hb. rewrite Hb in Hnil. discriminate.
  - intros Hne.
    destruct (filter (fun r => (rec_member_id r =? mid) && is_open r)
                     (borrow_records s)) as [|r l] eqn:E.
    + now contradiction Hne.
    + assert (Hr : In r (filter (fun r => (rec_member_id r =? mid)
                                          && is_open r)
                                (borrow_records s))) by (rewrite E; now left).
      apply filter_In in Hr. destruct Hr as [Hin Hf].
      apply andb_true_iff in Hf. destruct Hf as [Hb Ho].
      exists r. repeat split; [exact Hin | now apply Z.eqb_eq |].
      unfold is_open in Ho. now destruct (return_date r).
Qed.

Lemma delete_book_blocked (s : Store) (bid : Z) :
  Gateway.open_by_book s bid <> [] -> delete_book s bid = (CannotDelete, s).
Proof.
  unfold delete_book. intros H.
  destruct (Gateway.open_by_book s bid); [now contradiction H | reflexivity].
Qed.

Lemma delete_book_free (s : Store) (bid : Z) :
  Gateway.open_by_book s bid = [] ->
  fst (delete_book s bid) = Deleted /\
  (forall b, In b (books (snd (delete_book s bid))) <->
             In b (books s) /\ book_id b <> bid) /\
  members (snd (delete_book s bid)) = members s /\
  borrow_records (snd (delete_book s bid)) = borrow_records s.
Proof.
  unfold delete_book. intros H. rewrite H. simpl.
  split; [reflexivity | split; [|split; reflexivity]].
  intros b. rewrite filter_In, negb_true_iff, Z.eqb_neq. tauto.
Qed.

Lemma delete_member_blocked (s : Store) (mid : Z) :
  Gateway.open_by_member s mid <> [] ->
  delete_member s mid = (CannotDelete, s).
Proof.
  unfold delete_member. intros H.
  destruct (Gateway.open_by_member s mid); [now contradiction H | reflexivity].
Qed.

Lemma delete_member_free (s : Store) (mid : Z) :
  Gateway.open_by_member s mid = [] ->
  fst (delete_member s mid) = Deleted /\
  (forall m, In m (members (snd (delete_member s mid))) <->
             In m (members s) /\ member_id m <> mid) /\
  books (snd (delete_member s mid)) = books s /\
  borrow_records (snd (delete_member s mid)) = borrow_records s.
Proof.
  unfold delete_member. intros H. rewrite H. simpl.
  split; [reflexivity | split; [|split; reflexivity]].
  intros m. rewrite filter_In, negb_true_iff, Z.eqb_neq. tauto.
Qed.

(** C5: [delete_book] and [delete_member] refuse (the outcome the spec calls
    Conflict) and leave the whole store, the target row included, as it was
    whenever some open borrow record refers to the target; otherwise they
    succeed, and the table then holds exactly the rows with another id, the
    other tables being untouched. *)
Theorem delete_guarded_by_open_records (s : Store) (id : Z) :
  ((exists r, In r (borrow_records s) /\
              rec_book_id r = id /\ return_date r = None) ->
   delete_book s id = (CannotDelete, s)) /\
  (~ (exists r, In r (borrow_records s) /\
                rec_book_id r = id /\ return_date r = None) ->
   fst (delete_book s id) = Deleted /\
   (forall b, In b (books (snd (delete_book s id))) <->
              In b (books s) /\ book_id b <> id) /\
   members (snd (delete_book s id)) = members s /\
   borrow_records (snd (delete_book s id)) = borrow_records s) /\
  ((exists r, In r (borrow_records s) /\
              rec_member_id r = id /\ return_date r = None) ->
   delete_member s id = (CannotDelete, s)) /\
  (~ (exists r, In r (borrow_records s) /\
                rec_member_id r = id /\ return_date r = None) ->
   fst (delete_member s id) = Deleted /\
   (forall m, In m (members (snd (delete_member s id))) <->
              In m (members s) /\ member_id m <> id) /\
   books (snd (delete_member s id)) = books s /\
   borrow_records (snd (delete_member s id)) = borrow_records s).
Proof.
  split; [|split; [|split]].
  - intros H. apply delete_book_blocked. now apply open_by_book_some.
  - intros H. apply delete_book_free.
    destruct (Gateway.open_by_book s id) eqn:E; [reflexivity|].
    exfalso. apply H, open_by_book_some. rewrite E. discriminate.
  - intros H. apply delete_member_blocked. now apply open_by_member_some.
  - intros H. apply delete_member_free.
    destruct (Gateway.open_by_member s id) eqn:E; [reflexivity|].
    exfalso. apply H, open_by_member_some. rewrite E. discriminate.
Qed.

Lemma delete_guarded_by_open_records_witness :
  delete_book (snd (borrow_book store1 1 1)) 1
  = (CannotDelete, snd (borrow_book store1 1 1)) /\
  fst (delete_book store1 1) = Deleted /\
  delete_member (snd (borrow_book store1 1 1)) 1
  = (CannotDelete, snd (borrow_book store1 1 1)) /\
  fst (delete_member store1 1) = Deleted.
Proof.
  pose (r := mkBorrowRecord 1 1 1 100 None).
  split; [|split; [|split]].
  - apply (delete_guarded_by_open_records (snd (borrow_book store1 1 1)) 1).
    exists r. simpl. repeat split. now left.
  - apply (delete_guarded_by_open_records store1 1).
    simpl. intros (r0 & [] & _).
  - apply (delete_guarded_by_open_records (snd (borrow_book store1 1 1)) 1).
    exists r. simpl. repeat split. now left.
  - apply (delete_guarded_by_open_records store1 1).
    simpl. intros (r0 & [] & _).
Defined.

(** ** Non-negative stock *)

Lemma stock_nonneg_update (s : Store) (bid v : Z) :
  stock_nonneg s -> 0 <= v ->
  stock_nonneg (snd (Gateway.update_stock s bid v)).
Proof.
  unfold stock_nonneg. simpl. intros Hs Hv.
  induction Hs as [|b l Hb Hl IH]; simpl; constructor.
  - destruct (book_id b =? bid); simpl; lia.
  - exact IH.
Qed.

Lemma stock_nonneg_insert_book (s : Store) (t a c : string) (v : Z) :
  stock_nonneg s -> 0 <= v ->
  stock_nonneg (snd (Gateway.insert_book s t a c v)).
Proof.
  unfold stock_nonneg. simpl. intros Hs Hv.
  apply Forall_app. split; [exact Hs|]. now repeat constructor.
Qed.

Lemma stock_nonneg_delete_books (s : Store) (bid : Z) :
  stock_nonneg s -> stock_nonneg (Gateway.delete_books s bid).
Proof.
  unfold stock_nonneg. simpl. intros Hs.
  rewrite Forall_forall in *. intros b Hb.
  apply filter_In in Hb. now apply Hs.
Qed.

Lemma stock_nonneg_borrow (ok : bool) (s : Store) (mid bid : Z) :
  stock_nonneg s -> stock_nonneg (snd (borrow_book_gw ok s mid bid)).
Proof.
  intros Hs. unfold borrow_book_gw.
  destruct (Gateway.select_books s bid) as [|b l] eqn:Hsel; [exact Hs|].
  destruct (stock b <=? 0) eqn:E; [exact Hs|].
  apply Z.leb_gt in E.
  assert (Hupd : stock_nonneg
                   (snd (Gateway.update_stock s bid (stock b - 1))))
    by (apply stock_nonneg_update; [exact Hs | lia]).
  destruct ok; exact Hupd.
Qed.

Lemma stock_nonneg_return (s : Store) (mid bid : Z) :
  stock_nonneg s -> stock_nonneg (snd (return_book s mid bid)).
Proof.
  intros Hs. unfold return_book.
  destruct (Gateway.open_by_pair_limit1 s mid bid) as [|r l]; [exact Hs|].
  set (s1 := Gateway.update_return_date s (record_id r)).
  assert (Hs1 : stock_nonneg s1) by exact Hs.
  destruct (Gateway.select_books s1 bid) as [|b l'] eqn:Hsel; [exact Hs1|].
  change (stock_nonneg (snd (Gateway.update_stock s1 bid (stock b + 1)))).
  apply stock_nonneg_update; [exact Hs1|].
  apply select_books_head in Hsel. destruct Hsel as [Hin _].
  unfold stock_nonneg in Hs1. rewrite Forall_forall in Hs1.
  specialize (Hs1 b Hin). simpl in Hs1. lia.
Qed.

Lemma stock_nonneg_run_op (o : op) (s : Store) :
  stock_nonneg s -> op_stock_arg_nonneg o -> stock_nonneg (run_op o s).
Proof.
  intros Hs Ho. destruct o as [n e|t a c st|bid v|mid e|mid|bid|ok mid bid|mid bid];
    simpl.
  - exact Hs.
  - destruct st as [v|]; simpl in Ho;
      apply stock_nonneg_insert_book; (exact Hs || lia).
  - now apply stock_nonneg_update.
  - exact Hs.
  - unfold delete_member.
    destruct (Gateway.open_by_member s mid); exact Hs.
  - unfold delete_book.
    destruct (Gateway.open_by_book s bid); [|exact Hs].
    now apply stock_nonneg_delete_books.
  - now apply stock_nonneg_borrow.
  - now apply stock_nonneg_return.
Qed.

(** C2, as the code has it: borrow, return and the two deletes keep every
    stock non-negative, and so do add and update stock when the stock they
    are asked to write is not negative; hence every stock is non-negative
    after any sequence of operations none of which is asked to write a
    negative stock. *)
Theorem stock_nonneg_preserved (ops : list op) (s : Store) :
  stock_nonneg s ->
  Forall op_stock_arg_nonneg ops ->
  stock_nonneg (run_ops ops s).
Proof.
  unfold run_ops. revert s.
  induction ops as [|o ops IH]; intros s Hs Hops; simpl.
  - exact Hs.
  - inversion Hops as [|o' ops' Ho Hrest]; subst.
    apply IH; [|exact Hrest]. now apply stock_nonneg_run_op.
Qed.

Lemma stock_nonneg_preserved_witness :
  stock_nonneg
    (run_ops [OpAddBook "Emma"%string "Austen"%string "novel"%string (Some 0);
              OpBorrow true 1 1; OpUpdateStock 2 3; OpBorrow true 2 2;
              OpReturn 1 1; OpDeleteBook 1]
             store1).
Proof.
  apply stock_nonneg_preserved.
  - unfold stock_nonneg, store1. simpl. repeat constructor. simpl. lia.
  - repeat constructor; simpl; lia.
Defined.

(** C2 as stated fails: one update of the stock to -5 leaves a negative
    stock in a store whose stocks were all non-negative. *)
Lemma stock_nonneg_counterexample :
  stock_nonneg store1 /\
  stock_of (run_ops [OpUpdateStock 1 (-5)] store1) 1 = Some (-5) /\
  ~ stock_nonneg (run_ops [OpUpdateStock 1 (-5)] store1).
Proof.
  split; [|split].
  - unfold stock_nonneg, store1. simpl. repeat constructor. simpl. lia.
  - reflexivity.
  - unfold stock_nonneg. simpl. intros H.
    inversion H as [|b l Hb Hl]; subst. simpl in Hb. lia.
Qed.

(** ** Two borrowers *)

(** The three steps of one caller, run without interruption, are
    [borrow_book]: there is no fourth step and no second attempt. *)
Lemma run_one_is_borrow_book (s : Store) (mid bid : Z) :
  Interleaving.run_one 3 mid bid Interleaving.AtSelect s
  = (Interleaving.Finished (fst (borrow_book s mid bid)),
     snd (borrow_book s mid bid)).
Proof.
  unfold borrow_book, borrow_book_gw. simpl.
  destruct (Gateway.select_books s bid) as [|b l]; [reflexivity|].
  destruct (stock b <=? 0); reflexivity.
Qed.

(** C1, as the code has it: the decrement is an unconditional write of the
    value computed from the stock read at line 85 (it lands whatever the
    stock is by then), a caller makes one attempt of three store calls and
    no outcome reports a conflict; so for a book with stock 1, two calls of
    [borrow_book] that run one after the other never both succeed: the
    first succeeds and leaves stock 0, the second reports that the book is
    not available and changes nothing. *)
Theorem borrow_unconditional_write_sequential
        (s : Store) (midA midB bid : Z) :
  stock_of s bid = Some 1 ->
  (forall s' seen, stock_of s' bid <> None ->
     stock_of (snd (Interleaving.borrow_step
                      midA bid (Interleaving.AtUpdate seen) s')) bid
     = Some (seen - 1)) /\
  Interleaving.run_one 3 midA bid Interleaving.AtSelect s
  = (Interleaving.Finished BorrowSuccessful, snd (borrow_book s midA bid)) /\
  stock_of (snd (borrow_book s midA bid)) bid = Some 0 /\
  borrow_book (snd (borrow_book s midA bid)) midB bid
  = (BookNotAvailable, snd (borrow_book s midA bid)).
Proof.
  intros H1.
  assert (Hrun := borrow_positive_stock true s midA bid 1 H1).
  destruct Hrun as (Hres & Hstock & _); [lia|].
  fold borrow_book in Hres, Hstock. simpl in Hstock.
  split; [|split; [|split]].
  - intros s' seen Hsome. simpl. now apply stock_of_update_same.
  - rewrite run_one_is_borrow_book. now rewrite Hres.
  - exact Hstock.
  - apply (borrow_unavailable true _ midB bid 0); [exact Hstock | lia].
Qed.

Lemma borrow_unconditional_write_sequential_witness :
  stock_of (snd (borrow_book store1 1 1)) 1 = Some 0 /\
  borrow_book (snd (borrow_book store1 1 1)) 2 1
  = (BookNotAvailable, snd (borrow_book store1 1 1)).
Proof.
  assert (H : stock_of store1 1 = Some 1) by reflexivity.
  destruct (borrow_unconditional_write_sequential store1 1 2 1 H)
    as (_ & _ & H0 & Hsecond).
  split; [exact H0 | exact Hsecond].
Defined.

(** C1 as stated fails: on a book with stock 1, when both callers select
    before either updates, both calls of [borrow_book] succeed; each writes
    stock 0 over a stock that no longer equals the 1 it read (a
    compare-and-swap would have refused the second write), and two open
    records exist for a single copy. *)
Lemma concurrent_borrows_both_succeed_counterexample :
  let sched := [Interleaving.CallerA; Interleaving.CallerB;
                Interleaving.CallerA; Interleaving.CallerB;
                Interleaving.CallerA; Interleaving.CallerB] in
  let final := Interleaving.run_two 1 2 1 sched store1 in
  stock_of store1 1 = Some 1 /\
  Interleaving.pcA final = Interleaving.Finished BorrowSuccessful /\
  Interleaving.pcB final = Interleaving.Finished BorrowSuccessful /\
  stock_of (Interleaving.shared final) 1 = Some 0 /\
  List.length (Gateway.open_by_book (Interleaving.shared final) 1) = 2%nat /\
  fst (cas_stock (snd (Gateway.update_stock store1 1 0)) 1 1 0) = false.
Proof.
  repeat split.
Qed.

(** ** Returning *)

Section CloseOne.

Variables (mid bid : Z) (t : Z).

Lemma close_absent (rid : Z) (l : list BorrowRecord) :
  (forall x, In x l -> record_id x <> rid) -> map (Gateway.close_if rid t) l = l.
Proof.
  induction l as [|x l IH]; intros Hall; simpl; [reflexivity|].
  unfold Gateway.close_if at 1.
  assert (E : (record_id x =? rid) = false)
    by (apply Z.eqb_neq, Hall; now left).
  rewrite E. f_equal. apply IH. intros y Hy. apply Hall. now right.
Qed.


End CloseOne.

(** What a return does when the pair has an open record and the book
    exists: it closes the first open record of the pair and writes the stock
    it reads plus one. *)
Lemma return_book_run (s : Store) (mid bid : Z)
      (r : BorrowRecord) (rest : list BorrowRecord)
      (b : Book) (l : list Book) :
  filter (Gateway.open_for mid bid) (borrow_records s) = r :: rest ->
  Gateway.select_books s bid = b :: l ->
  return_book s mid bid
  = (ReturnSuccessful (record_id r),
     snd (Gateway.update_stock
            (Gateway.update_return_date s (record_id r)) bid (stock b + 1))).
Proof.
  intros Hopen Hsel. unfold return_book, Gateway.open_by_pair_limit1.
  rewrite Hopen. cbn [firstn].
  change (Gateway.select_books
            (Gateway.update_return_date s (record_id r)) bid)
    with (Gateway.select_books s bid).
  now rewrite Hsel.
Qed.

Lemma record_ids_after_insert (s : Store) (mid bid : Z) :
  record_ids_ok s ->
  NoDup (map record_id
             (borrow_records (Gateway.insert_borrow_record s mid bid))).
Proof.
  intros [Hnd Hlt]. simpl. rewrite map_app. simpl.
  apply NoDup_app; [exact Hnd | repeat constructor; intros [] |].
  intros i Hi [Heq | []]. subst i.
  apply in_map_iff in Hi. destruct Hi as (x & Hx & Hin).
  rewrite Forall_forall in Hlt. specialize (Hlt x Hin). lia.
Qed.

(** Unique record ids are an invariant of the program: every operation of
    the menu keeps them unique and below the next id. *)
Lemma record_ids_ok_insert (s : Store) (mid bid : Z) :
  record_ids_ok s -> record_ids_ok (Gateway.insert_borrow_record s mid bid).
Proof.
  intros Hok. split; [now apply record_ids_after_insert|].
  destruct Hok as [_ Hlt]. simpl. apply Forall_app. split.
  - rewrite Forall_forall in *. intros r Hr. specialize (Hlt r Hr). lia.
  - repeat constructor. simpl. lia.
Qed.

Lemma record_ids_ok_close (s : Store) (rid : Z) :
  record_ids_ok s -> record_ids_ok (Gateway.update_return_date s rid).
Proof.
  intros [Hnd Hlt]. unfold record_ids_ok. simpl.
  assert (Hid : forall r, record_id (Gateway.close_if rid (clock s) r)
                          = record_id r).
  { intros r. unfold Gateway.close_if.
    now destruct (record_id r =? rid). }
  split.
  - rewrite map_map. now rewrite (map_ext _ record_id Hid).
  - rewrite Forall_forall in *. intros r Hr.
    apply in_map_iff in Hr. destruct Hr as (r0 & Hr0 & Hin).
    subst r. rewrite Hid. now apply Hlt.
Qed.

Lemma record_ids_ok_run_op (o : op) (s : Store) :
  record_ids_ok s -> record_ids_ok (run_op o s).
Proof.
  intros Hok.
  destruct o as [n e|t a c st|bid v|mid e|mid|bid|ok mid bid|mid bid]; simpl.
  - exact Hok.
  - exact Hok.
  - exact Hok.
  - exact Hok.
  - unfold delete_member.
    destruct (Gateway.open_by_member s mid); exact Hok.
  - unfold delete_book.
    destruct (Gateway.open_by_book s bid); exact Hok.
  - unfold borrow_book_gw.
    destruct (Gateway.select_books s bid) as [|b l]; [exact Hok|].
    destruct (stock b <=? 0); [exact Hok|].
    destruct ok; [|exact Hok].
    apply record_ids_ok_insert. exact Hok.
  - unfold return_book.
    destruct (Gateway.open_by_pair_limit1 s mid bid) as [|r l]; [exact Hok|].
    assert (Hc := record_ids_ok_close s (record_id r) Hok).
    destruct (Gateway.select_books
                (Gateway.update_return_date s (record_id r)) bid);
      exact Hc.
Qed.

Lemma record_ids_ok_run_ops (ops : list op) (s : Store) :
  record_ids_ok s -> record_ids_ok (run_ops ops s).
Proof.
  unfold run_ops. revert s.
  induction ops as [|o ops IH]; intros s Hok; simpl; [exact Hok|].
  apply IH. now apply record_ids_ok_run_op.
Qed.




Lemma sorted_filter_head {A : Type} (R : A -> A -> Prop) (f : A -> bool)
      (l : list A) (r : A) (rest : list A) :
  StronglySorted R l -> filter f l = r :: rest ->
  forall r', In r' rest -> R r r'.
Proof.
  intros Hs. induction Hs as [|x l Hl IH Hx]; simpl; [discriminate|].
  destruct (f x).
  - intros Heq r' Hin. injection Heq as Hr Hrest. subst r rest.
    apply filter_In in Hin. rewrite Forall_forall in Hx.
    apply Hx. tauto.
  - exact IH.
Qed.

Lemma close_if_in (rid t : Z) (l : list BorrowRecord) (r : BorrowRecord) :
  In r l -> record_id r = rid ->
  In (Gateway.close_at t r) (map (Gateway.close_if rid t) l).
Proof.
  intros Hin Hid. apply in_map_iff. exists r. split; [|exact Hin].
  unfold Gateway.close_if. apply Z.eqb_eq in Hid. now rewrite Hid.
Qed.

Lemma close_if_keeps (rid t : Z) (l : list BorrowRecord) (x : BorrowRecord) :
  In x l -> record_id x <> rid -> In x (map (Gateway.close_if rid t) l).
Proof.
  intros Hin Hne. apply in_map_iff. exists x. split; [|exact Hin].
  unfold Gateway.close_if. apply Z.eqb_neq in Hne. now rewrite Hne.
Qed.

(** C8, as the code has it: the select of [return_book] has a limit of one
    row and no ordering, so when the pair has several open records the one
    closed is the first of them in the order in which the store lists the
    rows; the call succeeds (the book existing), that record is closed at
    the store's clock and the records with another id stay as they are.  It
    is a record with the earliest borrow date when the store lists the
    records by non-decreasing borrow date. *)
Theorem return_closes_first_listed
        (s : Store) (mid bid : Z) (r : BorrowRecord)
        (rest : list BorrowRecord) :
  open_records s mid bid = r :: rest ->
  stock_of s bid <> None ->
  fst (return_book s mid bid) = ReturnSuccessful (record_id r) /\
  In (Gateway.close_at (clock s) r)
     (borrow_records (snd (return_book s mid bid))) /\
  (forall x, In x (borrow_records s) -> record_id x <> record_id r ->
             In x (borrow_records (snd (return_book s mid bid)))) /\
  (StronglySorted (fun a b => borrow_date a <= borrow_date b)
                  (borrow_records s) ->
   forall r', In r' rest -> borrow_date r <= borrow_date r').
Proof.
  intros Hopen Hbook.
  assert (Hopen' : filter (Gateway.open_for mid bid) (borrow_records s)
                   = r :: rest) by exact Hopen.
  assert (Hrin : In r (borrow_records s)).
  { assert (H : In r (filter (Gateway.open_for mid bid) (borrow_records s)))
      by (rewrite Hopen'; now left).
    now apply filter_In in H. }
  unfold stock_of in Hbook.
  destruct (Gateway.select_books s bid) as [|b l] eqn:Hsel;
    [now contradiction Hbook|].
  rewrite (return_book_run s mid bid r rest b l Hopen' Hsel).
  cbn [fst snd].
  change (borrow_records
            (snd (Gateway.update_stock
                    (Gateway.update_return_date s (record_id r)) bid
                    (stock b + 1))))
    with (map (Gateway.close_if (record_id r) (clock s)) (borrow_records s)).
  split; [reflexivity|]. split; [|split].
  - now apply close_if_in.
  - intros x Hx Hne. now apply close_if_keeps.
  - intros Hsorted. exact (sorted_filter_head _ _ _ _ _ Hsorted Hopen').
Qed.

Lemma return_closes_first_listed_witness :
  let s := snd (borrow_book
                  (snd (borrow_book (snd (update_book_stock store1 1 2)) 1 1))
                  1 1) in
  open_records s 1 1
  = [mkBorrowRecord 1 1 1 100 None; mkBorrowRecord 2 1 1 100 None] /\
  fst (return_book s 1 1) = ReturnSuccessful 1 /\
  100 <= 100.
Proof.
  intros s.
  assert (Hopen : open_records s 1 1
                  = [mkBorrowRecord 1 1 1 100 None;
                     mkBorrowRecord 2 1 1 100 None]) by reflexivity.
  assert (Hbook : stock_of s 1 <> None) by discriminate.
  destruct (return_closes_first_listed s 1 1 _ _ Hopen Hbook)
    as (Hres & _ & _ & Hearly).
  split; [exact Hopen|]. split; [exact Hres|].
  apply (Hearly
           ltac:(simpl; repeat constructor; simpl; lia)
           (mkBorrowRecord 2 1 1 100 None)).
  now left.
Defined.

(** C8 as stated fails: of the two open records of the pair (1, 1), the
    store lists first the one borrowed at 20; [return_book] closes that one
    and leaves open the record borrowed at 10, the earliest. *)
Lemma return_not_earliest_counterexample :
  open_records store_two_open 1 1
  = [mkBorrowRecord 1 1 1 20 None; mkBorrowRecord 2 1 1 10 None] /\
  fst (return_book store_two_open 1 1) = ReturnSuccessful 1 /\
  borrow_records (snd (return_book store_two_open 1 1))
  = [mkBorrowRecord 1 1 1 20 (Some 100); mkBorrowRecord 2 1 1 10 None] /\
  10 < 20.
Proof.
  repeat split.
Qed.

(** ** The report of the most borrowed books *)

Lemma key_eqb_eq (k1 k2 : report_key) : key_eqb k1 k2 = true <-> k1 = k2.
Proof.
  destruct k1 as [[i1 t1] a1], k2 as [[i2 t2] a2]. simpl.
  rewrite !andb_true_iff, Z.eqb_eq, !String.eqb_eq.
  split.
  - intros [[Hi Ht] Ha]. now subst.
  - intros H. injection H as Hi Ht Ha. now subst.
Qed.

Lemma key_eqb_refl (k : report_key) : key_eqb k k = true.
Proof. now apply key_eqb_eq. Qed.

Lemma key_eqb_neq (k1 k2 : report_key) : key_eqb k1 k2 = false <-> k1 <> k2.
Proof.
  rewrite <- key_eqb_eq. destruct (key_eqb k1 k2); split; congruence.
Qed.

Lemma key_eq_dec (k1 k2 : report_key) : {k1 = k2} + {k1 <> k2}.
Proof.
  destruct (key_eqb k1 k2) eqn:E.
  - left. now apply key_eqb_eq.
  - right. now apply key_eqb_neq.
Defined.

(** The dictionary after [counts[k] = counts.get(k, 0) + 1]: the count of
    [k] is one more, the other counts are as before. *)
Lemma get_count_bump (k k' : report_key) (counts : list (report_key * Z)) :
  get_count k' (bump k counts)
  = if key_eqb k k' then get_count k counts + 1 else get_count k' counts.
Proof.
  induction counts as [|[k0 c0] rest IH]; simpl.
  - destruct (key_eqb k k'); reflexivity.
  - destruct (key_eqb k0 k) eqn:E0; simpl.
    + apply key_eqb_eq in E0. subst k0.
      destruct (key_eqb k k'); reflexivity.
    + destruct (key_eqb k0 k') eqn:E1.
      * assert (E2 : key_eqb k k' = false).
        { apply key_eqb_neq. intros Hk. subst k'. congruence. }
        now rewrite E2.
      * exact IH.
Qed.

(** A key already in the dictionary keeps its place; a new key goes last. *)
Lemma keys_bump (k : report_key) (counts : list (report_key * Z)) :
  (In k (map fst counts) -> map fst (bump k counts) = map fst counts) /\
  (~ In k (map fst counts) ->
   bump k counts = counts ++ [(k, 1)]).
Proof.
  induction counts as [|[k0 c0] rest [IHin IHout]]; simpl.
  - split; [intros [] | reflexivity].
  - destruct (key_eqb k0 k) eqn:E0.
    + apply key_eqb_eq in E0. subst k0. split; [reflexivity|].
      intros Hn. exfalso. apply Hn. now left.
    + apply key_eqb_neq in E0. simpl. split.
      * intros [Heq | Hin]; [congruence|]. now rewrite IHin.
      * intros Hn. rewrite IHout; [reflexivity|]. tauto.
Qed.

Lemma in_get_count (k : report_key) (c : Z) (counts : list (report_key * Z)) :
  NoDup (map fst counts) -> In (k, c) counts -> get_count k counts = c.
Proof.
  induction counts as [|[k0 c0] rest IH]; simpl; [intros _ []|].
  intros Hnd [Heq | Hin].
  - injection Heq as Hk Hc. subst. now rewrite key_eqb_refl.
  - inversion Hnd as [|x xs Hx Hrest]; subst.
    destruct (key_eqb k0 k) eqn:E.
    + apply key_eqb_eq in E. subst k0. exfalso. apply Hx.
      change k with (fst (k, c)). now apply in_map.
    + now apply IH.
Qed.

Section FirstSeen.

Context {A : Type} (eq_dec : forall x y : A, {x = y} + {x <> y}).

Lemma in_split_first (a : A) (l : list A) :
  In a l -> exists l1 l2, l = l1 ++ a :: l2 /\ ~ In a l1.
Proof.
  induction l as [|x l IH]; [intros []|].
  intros Hin. destruct (eq_dec x a) as [Heq | Hne].
  - subst x. exists [], l. split; [reflexivity | intros []].
  - destruct Hin as [Heq | Hin]; [contradiction|].
    destruct (IH Hin) as (l1 & l2 & Hl & Hn).
    exists (x :: l1), l2. split; [now rewrite Hl|].
    intros [Hx | Hx]; [contradiction | now apply Hn].
Qed.

Lemma first_seen_before_snoc (ks : list A) (k a b : A) :
  first_seen_before ks a b -> first_seen_before (ks ++ [k]) a b.
Proof.
  intros (l1 & l2 & Hl & Ha & Hb & Hne).
  exists l1, (l2 ++ [k]). rewrite Hl, <- app_assoc. now repeat split.
Qed.

Lemma first_seen_before_new (ks : list A) (k a : A) :
  In a ks -> ~ In k ks -> first_seen_before (ks ++ [k]) a k.
Proof.
  intros Hin Hnew. destruct (in_split_first a ks Hin) as (l1 & l2 & Hl & Hn).
  exists l1, (l2 ++ [k]). rewrite Hl, <- app_assoc.
  repeat split; [exact Hn | | ].
  - intros Hk. apply Hnew. rewrite Hl. apply in_or_app. now left.
  - intros Heq. subst a. contradiction.
Qed.

End FirstSeen.

Lemma StronglySorted_snoc {A : Type} (R : A -> A -> Prop)
      (l : list A) (x : A) :
  StronglySorted R l -> Forall (fun a => R a x) l ->
  StronglySorted R (l ++ [x]).
Proof.
  intros Hs. induction Hs as [|y l Hl IH Hy]; intros Hall; simpl.
  - repeat constructor.
  - inversion Hall as [|y' l' Hyx Hrest]; subst. constructor.
    + now apply IH.
    + apply Forall_app. split; [exact Hy | now repeat constructor].
Qed.

Lemma StronglySorted_weaken {A : Type} (R R' : A -> A -> Prop)
      (l : list A) :
  (forall a b, In a l -> In b l -> R a b -> R' a b) ->
  StronglySorted R l -> StronglySorted R' l.
Proof.
  intros Himp Hs. induction Hs as [|y l Hl IH Hy]; constructor.
  - apply IH. intros a b Ha Hb. apply Himp; now right.
  - rewrite Forall_forall in *. intros z Hz.
    apply Himp; [now left | now right | now apply Hy].
Qed.

Lemma StronglySorted_map {A B : Type} (R : B -> B -> Prop) (f : A -> B)
      (l : list A) :
  StronglySorted R (map f l) ->
  StronglySorted (fun x y => R (f x) (f y)) l.
Proof.
  induction l as [|x l IH]; simpl; intros Hs; [constructor|].
  inversion Hs as [|y ys Hys Hy]; subst. constructor.
  - now apply IH.
  - rewrite Forall_forall in *. intros z Hz. apply Hy. now apply in_map.
Qed.

Lemma count_keys_snoc (ks : list report_key) (k : report_key) :
  count_keys (ks ++ [k]) = bump k (count_keys ks).
Proof. unfold count_keys. now rewrite fold_left_app. Qed.

(** The count kept for a key is the number of times the key was met. *)
Lemma get_count_count_keys (ks : list report_key) (k : report_key) :
  get_count k (count_keys ks) = Z.of_nat (count_occ key_eq_dec ks k).
Proof.
  induction ks as [|k0 ks IH] using rev_ind; [reflexivity|].
  rewrite count_keys_snoc, get_count_bump, count_occ_app. simpl.
  destruct (key_eq_dec k0 k) as [Heq | Hne].
  - subst k0. rewrite key_eqb_refl, IH. lia.
  - apply key_eqb_neq in Hne. rewrite Hne, IH. lia.
Qed.

(** The keys of the dictionary are the keys met, each once, in the order in
    which they were first met. *)
Lemma keys_count_keys (ks : list report_key) :
  NoDup (map fst (count_keys ks)) /\
  (forall k, In k (map fst (count_keys ks)) <-> In k ks) /\
  StronglySorted (first_seen_before ks) (map fst (count_keys ks)).
Proof.
  induction ks as [|k0 ks (Hnd & Hin & Hs)] using rev_ind.
  - simpl. repeat split; try constructor; intros [].
  - rewrite count_keys_snoc.
    destruct (keys_bump k0 (count_keys ks)) as [Hold Hnew].
    destruct (in_dec key_eq_dec k0 (map fst (count_keys ks))) as [Hk | Hk].
    + rewrite (Hold Hk). split; [exact Hnd|]. split.
      * intros k. rewrite Hin, in_app_iff. simpl.
        split; [tauto|]. intros [H | [H | []]]; [exact H|].
        subst k. now apply Hin.
      * apply StronglySorted_weaken with (R := first_seen_before ks);
          [|exact Hs].
        intros a b _ _. apply first_seen_before_snoc.
    + rewrite (Hnew Hk), map_app. simpl. split; [|split].
      * apply NoDup_app; [exact Hnd | repeat constructor; intros [] |].
        intros a Ha [Heq | []]. subst a. contradiction.
      * intros k. rewrite !in_app_iff, Hin. reflexivity.
      * apply StronglySorted_snoc.
        -- apply StronglySorted_weaken with (R := first_seen_before ks);
             [|exact Hs].
           intros a b _ _. apply first_seen_before_snoc.
        -- rewrite Forall_forall. intros a Ha.
           apply (first_seen_before_new key_eq_dec).
           ++ now apply Hin.
           ++ intros Hk0. apply Hk. now apply Hin.
Qed.

(** *** The stable sort by descending count *)

Lemma insert_desc_perm (x : report_key * Z) (l : list (report_key * Z)) :
  Permutation (insert_desc x l) (x :: l).
Proof.
  induction l as [|y l IH]; simpl; [reflexivity|].
  destruct (snd y <=? snd x); [reflexivity|].
  rewrite IH. apply perm_swap.
Qed.

Lemma sorted_desc_perm (l : list (report_key * Z)) :
  Permutation (sorted_desc l) l.
Proof.
  induction l as [|x l IH]; simpl; [reflexivity|].
  rewrite insert_desc_perm. now apply perm_skip.
Qed.

Section Stable.

Variable R : report_key * Z -> report_key * Z -> Prop.

Lemma insert_desc_sorted (x : report_key * Z) (l : list (report_key * Z)) :
  StronglySorted (by_count_then R) l -> Forall (R x) l ->
  StronglySorted (by_count_then R) (insert_desc x l).
Proof.
  intros Hs. induction Hs as [|y l Hl IH Hy]; intros Hx; simpl.
  - repeat constructor.
  - inversion Hx as [|y' l' Hxy Hxl]; subst.
    destruct (snd y <=? snd x) eqn:E.
    + apply Z.leb_le in E. constructor; [now constructor|].
      constructor.
      * unfold by_count_then.
        destruct (Z.eq_dec (snd x) (snd y)); [right | left].
        -- now split.
        -- lia.
      * rewrite Forall_forall in *. intros z Hz.
        specialize (Hy z Hz). specialize (Hxl z Hz).
        unfold by_count_then in *.
        destruct (Z.eq_dec (snd x) (snd z)); [right | left].
        -- now split.
        -- lia.
    + apply Z.leb_gt in E. constructor; [now apply IH|].
      rewrite Forall_forall in *. intros z Hz.
      apply (Permutation_in _ (insert_desc_perm x l)) in Hz.
      destruct Hz as [Hz | Hz].
      * subst z. left. exact E.
      * now apply Hy.
Qed.

(** Items that come in the order [R] leave the sort by descending count
    with ties in the order [R]: the sort is stable. *)
Lemma sorted_desc_stable (l : list (report_key * Z)) :
  StronglySorted R l -> StronglySorted (by_count_then R) (sorted_desc l).
Proof.
  intros Hs. induction Hs as [|x l Hl IH Hx]; simpl; [constructor|].
  apply insert_desc_sorted; [exact IH|].
  rewrite Forall_forall in *. intros z Hz. apply Hx.
  now apply (Permutation_in _ (sorted_desc_perm l)).
Qed.

End Stable.

(** *** From the store to the printed lines *)

Lemma key_of_bid (s : Store) (bid : Z) : fst (fst (key_of s bid)) = bid.
Proof.
  unfold key_of. now destruct (Gateway.select_books s bid).
Qed.

Lemma key_of_inj (s : Store) (b1 b2 : Z) :
  key_of s b1 = key_of s b2 -> b1 = b2.
Proof.
  intros H. rewrite <- (key_of_bid s b1), <- (key_of_bid s b2).
  now rewrite H.
Qed.

(** On a store whose records all have their book, the counting loop ends
    with the dictionary of the keys of the records' books. *)
Lemma count_rows_joinable (s : Store) (recs : list BorrowRecord)
      (acc : list (report_key * Z)) :
  Forall (fun r => Gateway.select_books s (rec_book_id r) <> []) recs ->
  count_rows
    (map (fun r =>
            (rec_book_id r,
             match Gateway.select_books s (rec_book_id r) with
             | b :: _ => Some (title b, author b)
             | [] => None
             end)) recs) acc
  = Some (fold_left (fun a k => bump k a)
                    (map (key_of s) (map rec_book_id recs)) acc).
Proof.
  intros Hall. revert acc.
  induction Hall as [|r recs Hr Hrecs IH]; intros acc; simpl;
    [reflexivity|].
  assert (Hkey : key_of s (rec_book_id r)
                 = match Gateway.select_books s (rec_book_id r) with
                   | b :: _ => (rec_book_id r, title b, author b)
                   | [] => (rec_book_id r, EmptyString, EmptyString)
                   end) by reflexivity.
  destruct (Gateway.select_books s (rec_book_id r)) as [|b l];
    [now contradiction Hr|].
  rewrite Hkey. apply IH.
Qed.

Lemma count_occ_key_of (s : Store) (ids : list Z) (bid : Z) :
  count_occ key_eq_dec (map (key_of s) ids) (key_of s bid)
  = count_occ Z.eq_dec ids bid.
Proof.
  induction ids as [|i ids IH]; simpl; [reflexivity|].
  destruct (key_eq_dec (key_of s i) (key_of s bid)) as [Hk | Hk];
    destruct (Z.eq_dec i bid) as [Hi | Hi].
  - now rewrite IH.
  - apply key_of_inj in Hk. contradiction.
  - subst i. now contradiction Hk.
  - exact IH.
Qed.

Lemma first_seen_before_key_of (s : Store) (ids : list Z) (b1 b2 : Z) :
  first_seen_before (map (key_of s) ids) (key_of s b1) (key_of s b2) ->
  first_seen_before ids b1 b2.
Proof.
  intros (l1 & l2 & Hl & H1 & H2 & Hne).
  apply map_eq_app in Hl. destruct Hl as (i1 & itl & Hids & Hl1 & Htl).
  apply map_eq_cons in Htl. destruct Htl as (a & i2 & Hitl & Ha & Hl2).
  apply key_of_inj in Ha. subst a itl l1.
  exists i1, i2. repeat split.
  - exact Hids.
  - intros Hin. apply H1. now apply in_map.
  - intros Hin. apply H2. now apply in_map.
  - intros Heq. apply Hne. now rewrite Heq.
Qed.

Lemma NoDup_map_inj_on {A B : Type} (f : A -> B) (l : list A) :
  (forall x y, In x l -> In y l -> f x = f y -> x = y) ->
  NoDup l -> NoDup (map f l).
Proof.
  intros Hinj Hnd. induction Hnd as [|x l Hx Hl IH]; simpl; constructor.
  - intros Hin. apply in_map_iff in Hin. destruct Hin as (y & Hy & Hyin).
    assert (y = x) by (apply Hinj; [now right | now left | exact Hy]).
    subst y. contradiction.
  - apply IH. intros a b Ha Hb. apply Hinj; now right.
Qed.

(** The lines of the report: one per book that has a record, with the
    number of its records, by descending count and then by first record. *)
Lemma report_top_borrowed_spec (s : Store) (limit : Z) :
  records_joinable s -> 0 <= limit ->
  exists full,
    report_top_borrowed s (Some limit)
    = Some (firstn (Z.to_nat limit) full) /\
    NoDup (map bid_of full) /\
    (forall bid, In bid (map bid_of full)
                 <-> In bid (map rec_book_id (borrow_records s))) /\
    (forall e, In e full ->
       fst e = key_of s (bid_of e) /\
       snd e = Z.of_nat (count_occ Z.eq_dec
                                   (map rec_book_id (borrow_records s))
                                   (bid_of e))) /\
    StronglySorted
      (by_count_then_first_seen (map rec_book_id (borrow_records s))) full.
Proof.
  intros Hjoin Hlimit.
  set (ids := map rec_book_id (borrow_records s)).
  set (ks := map (key_of s) ids).
  destruct (keys_count_keys ks) as (Hnd & Hin & Hs).
  assert (Hperm := sorted_desc_perm (count_keys ks)).
  (* every line is the line of a book that has a record *)
  assert (Hline : forall e, In e (sorted_desc (count_keys ks)) ->
                  In (bid_of e) ids /\ fst e = key_of s (bid_of e)).
  { intros e He. apply (Permutation_in _ Hperm) in He.
    assert (Hk : In (fst e) ks) by (apply Hin; now apply in_map).
    apply in_map_iff in Hk. destruct Hk as (b & Hb & Hbin).
    unfold bid_of. rewrite <- Hb, key_of_bid. now split. }
  exists (sorted_desc (count_keys ks)). split; [|split; [|split; [|split]]].
  - unfold report_top_borrowed, Gateway.select_with_book.
    rewrite (count_rows_joinable s (borrow_records s) [] Hjoin).
    unfold slice_to.
    assert (E : (0 <=? limit) = true) by now apply Z.leb_le.
    now rewrite E.
  - apply (Permutation_NoDup
             (Permutation_map bid_of (Permutation_sym Hperm))).
    apply NoDup_map_inj_on.
    + intros x y Hx Hy Hxy.
      apply (Permutation_in _ (Permutation_sym Hperm)) in Hx, Hy.
      destruct (Hline x Hx) as [_ Hkx]. destruct (Hline y Hy) as [_ Hky].
      assert (Hfst : fst x = fst y) by (rewrite Hkx, Hky; now rewrite Hxy).
      destruct x as [kx cx], y as [ky cy]. simpl in Hfst. subst ky.
      apply (Permutation_in _ Hperm) in Hx, Hy.
      f_equal. rewrite <- (in_get_count kx cx _ Hnd Hx).
      now apply in_get_count.
    + exact (NoDup_map_inv fst (count_keys ks) Hnd).
  - intros bid. split.
    + intros Hb. apply in_map_iff in Hb. destruct Hb as (e & He & Hein).
      subst bid. now apply Hline.
    + intros Hb.
      assert (Hk : In (key_of s bid) (map fst (count_keys ks))).
      { apply Hin. now apply in_map. }
      apply in_map_iff in Hk. destruct Hk as (e & He & Hein).
      apply in_map_iff. exists e. split.
      * unfold bid_of. rewrite He. apply key_of_bid.
      * now apply (Permutation_in _ (Permutation_sym Hperm)).
  - intros e He. destruct (Hline e He) as [Hid Hkey]. split; [exact Hkey|].
    apply (Permutation_in _ Hperm) in He.
    destruct e as [k c]. simpl in Hkey. simpl snd.
    remember (bid_of (k, c)) as b eqn:Hb. clear Hb. subst k.
    rewrite <- (in_get_count _ c _ Hnd He), get_count_count_keys.
    f_equal. apply count_occ_key_of.
  - apply StronglySorted_weaken
      with (R := by_count_then
                   (fun x y => first_seen_before ks (fst x) (fst y))).
    + intros x y Hx Hy [Hlt | [Heq Hxy]]; [now left|]. right.
      split; [exact Heq|].
      destruct (Hline x Hx) as [_ Hkx]. destruct (Hline y Hy) as [_ Hky].
      rewrite Hkx, Hky in Hxy.
      now apply first_seen_before_key_of in Hxy.
    + apply sorted_desc_stable. now apply StronglySorted_map.
Qed.

(** The example of the spec: books 1 and 2 with three records each and
    book 3 with one.  The two lines kept are those of books 1 and 2, in the
    order of their first records. *)
Lemma report_top2_example (s : Store) :
  records_joinable s ->
  (forall i, In i (map rec_book_id (borrow_records s)) ->
             i = 1 \/ i = 2 \/ i = 3) ->
  count_occ Z.eq_dec (map rec_book_id (borrow_records s)) 1 = 3%nat ->
  count_occ Z.eq_dec (map rec_book_id (borrow_records s)) 2 = 3%nat ->
  count_occ Z.eq_dec (map rec_book_id (borrow_records s)) 3 = 1%nat ->
  exists res,
    report_top_borrowed s (Some 2) = Some res /\
    map snd res = [3; 3] /\
    ((map bid_of res = [1; 2] /\
      first_seen_before (map rec_book_id (borrow_records s)) 1 2) \/
     (map bid_of res = [2; 1] /\
      first_seen_before (map rec_book_id (borrow_records s)) 2 1)).
Proof.
  intros Hjoin Hids H1 H2 H3.
  set (ids := map rec_book_id (borrow_records s)) in *.
  destruct (report_top_borrowed_spec s 2 Hjoin ltac:(lia))
    as (full & Hrep & Hnd & Hmem & Hcount & Hsorted).
  fold ids in Hmem, Hcount, Hsorted.
  assert (Hperm : Permutation (map bid_of full) [1; 2; 3]).
  { apply NoDup_Permutation; [exact Hnd | |].
    - repeat constructor; simpl; intuition lia.
    - intros x. rewrite Hmem. split; [intros Hx | intros Hx].
      + destruct (Hids x Hx) as [-> | [-> | ->]]; simpl; tauto.
      + apply (count_occ_In Z.eq_dec).
        destruct Hx as [<- | [<- | [<- | []]]]; lia. }
  assert (Hlen : List.length full = 3%nat).
  { rewrite <- (length_map bid_of). now rewrite (Permutation_length Hperm). }
  destruct full as [|e1 [|e2 [|e3 [|e4 full]]]]; try discriminate Hlen.
  clear Hlen.
  assert (Hc1 := proj2 (Hcount e1 ltac:(simpl; tauto))).
  assert (Hc2 := proj2 (Hcount e2 ltac:(simpl; tauto))).
  assert (Hc3 := proj2 (Hcount e3 ltac:(simpl; tauto))).
  assert (Hb1 : In (bid_of e1) [1; 2; 3])
    by (apply (Permutation_in _ Hperm); simpl; tauto).
  assert (Hb2 : In (bid_of e2) [1; 2; 3])
    by (apply (Permutation_in _ Hperm); simpl; tauto).
  assert (Hb3 : In (bid_of e3) [1; 2; 3])
    by (apply (Permutation_in _ Hperm); simpl; tauto).
  simpl in Hnd.
  inversion Hnd as [|x1 l1 Hn1 Hnd']; subst.
  inversion Hnd' as [|x2 l2 Hn2 _]; subst.
  inversion Hsorted as [|x1 l1 Hs' Hr1]; subst.
  inversion Hs' as [|x2 l2 _ Hr2]; subst.
  inversion Hr1 as [|x2 l2 Hr12 Hr1']; subst.
  inversion Hr1' as [|x3 l3 Hr13 _]; subst.
  inversion Hr2 as [|x3 l3 Hr23 _]; subst.
  unfold by_count_then_first_seen, by_count_then in Hr12, Hr13, Hr23.
  simpl in Hn1, Hn2.
  exists [e1; e2]. split; [exact Hrep|].
  simpl map.
  remember (bid_of e1) as b1 eqn:E1.
  remember (bid_of e2) as b2 eqn:E2.
  remember (bid_of e3) as b3 eqn:E3.
  clear E1 E2 E3 Hperm Hnd Hnd' Hsorted Hs' Hr1 Hr1' Hr2 Hmem Hcount Hrep.
  simpl in Hb1, Hb2, Hb3.
  destruct Hb1 as [<- | [<- | [<- | []]]];
    destruct Hb2 as [<- | [<- | [<- | []]]];
    destruct Hb3 as [<- | [<- | [<- | []]]];
    try (exfalso; tauto);
    rewrite Hc1, Hc2, Hc3 in *; clear Hc1 Hc2 Hc3;
    rewrite ?H1, ?H2, ?H3 in *; simpl Z.of_nat in *;
    try (exfalso; lia).
  - split; [reflexivity|]. left. split; [reflexivity|].
    destruct Hr12 as [Hlt | [_ Hfs]]; [lia | exact Hfs].
  - split; [reflexivity|]. right. split; [reflexivity|].
    destruct Hr12 as [Hlt | [_ Hfs]]; [lia | exact Hfs].
Qed.

(** * Further properties of the program *)

(** ** What [borrow_book] and [return_book] check *)

(** [borrow_book] reports success exactly when a book with the id exists,
    the stock it reads is positive and the store accepts the insert of the
    borrow record; with the same book and stock and an insert that the store
    refuses, it raises.  These are all the conditions: the checks of lines
    86-91 look at the book row only. *)
Theorem borrow_succeeds_iff_stock_and_insert
        (ok : bool) (s : Store) (mid bid : Z) :
  (fst (borrow_book_gw ok s mid bid) = BorrowSuccessful <->
   ok = true /\ exists v, stock_of s bid = Some v /\ 0 < v) /\
  (fst (borrow_book_gw ok s mid bid) = BorrowRaised <->
   ok = false /\ exists v, stock_of s bid = Some v /\ 0 < v).
Proof.
  unfold borrow_book_gw, stock_of.
  destruct (Gateway.select_books s bid) as [|b l]; simpl.
  - split; (split; [discriminate | intros (_ & v & Hv & _); discriminate]).
  - destruct (stock b <=? 0) eqn:E; simpl.
    + apply Z.leb_le in E.
      split; (split; [discriminate|]);
        intros (_ & v & Hv & Hpos); injection Hv as Hv; lia.
    + apply Z.leb_gt in E.
      assert (Hex : exists v, Some (stock b) = Some v /\ 0 < v)
        by now exists (stock b).
      destruct ok; simpl; split; split;
        try discriminate; try (intros [Hok _]; discriminate);
        intros _; try reflexivity; now split.
Qed.

Lemma open_for_filter_nil (s : Store) (mid bid : Z) :
  filter (Gateway.open_for mid bid) (borrow_records s) = [] <->
  (forall r, In r (borrow_records s) -> rec_member_id r = mid ->
             rec_book_id r = bid -> return_date r <> None).
Proof.
  rewrite filter_nil_iff. split.
  - intros Hall r Hin Hm Hb Hopen. specialize (Hall r Hin).
    unfold Gateway.open_for, is_open in Hall.
    apply Z.eqb_eq in Hm, Hb. rewrite Hm, Hb, Hopen in Hall. discriminate.
  - intros Hall r Hin. unfold Gateway.open_for.
    destruct (rec_member_id r =? mid) eqn:Em; [|reflexivity].
    destruct (rec_book_id r =? bid) eqn:Eb; [|reflexivity].
    apply Z.eqb_eq in Em, Eb. unfold is_open.
    destruct (return_date r) eqn:Er; [reflexivity|].
    exfalso. now apply (Hall r Hin Em Eb).
Qed.

(** [return_book] reports that there is no active borrow exactly when no
    record of the pair is open, and then it leaves the store as it was. *)
Theorem return_without_open_record (s : Store) (mid bid : Z) :
  ((forall r, In r (borrow_records s) -> rec_member_id r = mid ->
              rec_book_id r = bid -> return_date r <> None) <->
   fst (return_book s mid bid) = NoActiveBorrow) /\
  (fst (return_book s mid bid) = NoActiveBorrow ->
   snd (return_book s mid bid) = s).
Proof.
  rewrite <- open_for_filter_nil.
  unfold return_book, Gateway.open_by_pair_limit1.
  destruct (filter (Gateway.open_for mid bid) (borrow_records s))
    as [|r rest]; cbn [firstn].
  - split; [split; reflexivity | reflexivity].
  - destruct (Gateway.select_books
                (Gateway.update_return_date s (record_id r)) bid);
      simpl; split; try split; discriminate.
Qed.

Lemma return_without_open_record_witness :
  fst (return_book store_history 1 1) = NoActiveBorrow /\
  snd (return_book store_history 1 1) = store_history.
Proof.
  assert (H : fst (return_book store_history 1 1) = NoActiveBorrow).
  { apply (return_without_open_record store_history 1 1).
    simpl. intros r [Hr | []] _ _. subst r. discriminate. }
  split; [exact H|].
  now apply (return_without_open_record store_history 1 1).
Defined.

(** When the pair has an open record but no book with the id is left,
    [return_book] closes the record and then fails on [.data[0]]: the loan
    is closed, no stock is written. *)
Theorem return_missing_book_closes_record
        (s : Store) (mid bid : Z) (r : BorrowRecord)
        (rest : list BorrowRecord) :
  open_records s mid bid = r :: rest ->
  (forall b, In b (books s) -> book_id b <> bid) ->
  fst (return_book s mid bid) = ReturnRaised /\
  books (snd (return_book s mid bid)) = books s /\
  In (Gateway.close_at (clock s) r)
     (borrow_records (snd (return_book s mid bid))).
Proof.
  intros Hopen Hnone.
  assert (Hopen' : filter (Gateway.open_for mid bid) (borrow_records s)
                   = r :: rest) by exact Hopen.
  assert (Hrin : In r (borrow_records s)).
  { assert (H : In r (filter (Gateway.open_for mid bid) (borrow_records s)))
      by (rewrite Hopen'; now left).
    now apply filter_In in H. }
  apply select_books_nil in Hnone.
  unfold return_book, Gateway.open_by_pair_limit1.
  rewrite Hopen'. cbn [firstn].
  change (Gateway.select_books
            (Gateway.update_return_date s (record_id r)) bid)
    with (Gateway.select_books s bid).
  rewrite Hnone. cbn [fst snd].
  split; [reflexivity|]. split; [reflexivity|].
  simpl. now apply close_if_in.
Qed.

Lemma return_missing_book_closes_record_witness :
  let s := set_books store_two_open [] in
  fst (return_book s 1 1) = ReturnRaised /\
  books (snd (return_book s 1 1)) = [] /\
  In (mkBorrowRecord 1 1 1 20 (Some 100))
     (borrow_records (snd (return_book s 1 1))).
Proof.
  intros s.
  apply (return_missing_book_closes_record
           s 1 1 (mkBorrowRecord 1 1 1 20 None)
           [mkBorrowRecord 2 1 1 10 None]).
  - reflexivity.
  - simpl. intros b [].
Defined.

Lemma borrow_succeeds_iff_stock_and_insert_witness :
  fst (borrow_book_gw true store1 99 1) = BorrowSuccessful /\
  fst (borrow_book_gw false store1 99 1) = BorrowRaised.
Proof.
  split.
  - apply (proj1 (borrow_succeeds_iff_stock_and_insert true store1 99 1)).
    split; [reflexivity|]. exists 1. split; [reflexivity | lia].
  - apply (proj2 (borrow_succeeds_iff_stock_and_insert false store1 99 1)).
    split; [reflexivity|]. exists 1. split; [reflexivity | lia].
Defined.

(** ** Copies in stock and copies on loan *)

(** Closing a record with a unique id takes one record out of the open
    records of its book and none out of those of another book. *)
Lemma close_book_counts (bid t : Z) (r : BorrowRecord)
      (l : list BorrowRecord) :
  NoDup (map record_id l) -> In r l -> is_open r = true ->
  List.length (filter (fun x => (rec_book_id x =? bid) && is_open x) l)
  = Nat.add
      (if rec_book_id r =? bid then 1%nat else 0%nat)
      (List.length
         (filter (fun x => (rec_book_id x =? bid) && is_open x)
                 (map (Gateway.close_if (record_id r) t) l))).
Proof.
  intros Hnd Hin Hopen.
  induction l as [|x l IH]; [destruct Hin|].
  simpl in Hnd. inversion Hnd as [|i ids Hx Hl]; subst.
  destruct Hin as [Heq | Hin].
  - subst x.
    assert (Hc : Gateway.close_if (record_id r) t r = Gateway.close_at t r)
      by (unfold Gateway.close_if; now rewrite Z.eqb_refl).
    assert (Htail : map (Gateway.close_if (record_id r) t) l = l).
    { apply close_absent. intros y Hy Heq. apply Hx. rewrite <- Heq.
      now apply in_map. }
    cbn [map filter]. rewrite Hc, Htail.
    change (rec_book_id (Gateway.close_at t r)) with (rec_book_id r).
    change (is_open (Gateway.close_at t r)) with false.
    rewrite Hopen, andb_false_r, andb_true_r.
    destruct (rec_book_id r =? bid); reflexivity.
  - assert (Hc : Gateway.close_if (record_id r) t x = x).
    { unfold Gateway.close_if.
      assert (E : (record_id x =? record_id r) = false).
      { apply Z.eqb_neq. intros Heq. apply Hx. rewrite Heq.
        now apply in_map. }
      now rewrite E. }
    cbn [map filter]. rewrite Hc.
    destruct ((rec_book_id x =? bid) && is_open x); cbn [List.length];
      rewrite (IH Hl Hin); lia.
Qed.

Lemma on_loan_insert (s : Store) (mid b bid : Z) :
  on_loan (Gateway.insert_borrow_record s mid b) bid
  = on_loan s bid + (if b =? bid then 1 else 0).
Proof.
  unfold on_loan, Gateway.open_by_book. simpl.
  rewrite filter_app, length_app. simpl.
  destruct (b =? bid); simpl; lia.
Qed.

Lemma borrow_conserves (s : Store) (mid b bid v : Z) :
  stock_of s bid = Some v ->
  exists v', stock_of (snd (borrow_book s mid b)) bid = Some v' /\
             v' + on_loan (snd (borrow_book s mid b)) bid
             = v + on_loan s bid.
Proof.
  intros Hv. unfold borrow_book, borrow_book_gw.
  destruct (Gateway.select_books s b) as [|bk l] eqn:Hsel;
    [exists v; now split|].
  destruct (stock bk <=? 0) eqn:E; [exists v; now split|].
  cbn [snd]. rewrite stock_of_insert_borrow_record, on_loan_insert.
  change (on_loan (snd (Gateway.update_stock s b (stock bk - 1))) bid)
    with (on_loan s bid).
  destruct (Z.eq_dec b bid) as [Heq | Hne].
  - subst b. rewrite Z.eqb_refl.
    assert (Hbk : stock bk = v).
    { unfold stock_of in Hv. rewrite Hsel in Hv. now injection Hv. }
    exists (stock bk - 1). split; [|lia].
    apply stock_of_update_same. rewrite Hv. discriminate.
  - assert (En : (b =? bid) = false) by now apply Z.eqb_neq.
    rewrite En. exists v. split; [|lia].
    rewrite stock_of_update_other; [exact Hv | congruence].
Qed.

Lemma return_conserves (s : Store) (mid b bid v : Z) :
  record_ids_ok s -> stock_of s bid = Some v ->
  exists v', stock_of (snd (return_book s mid b)) bid = Some v' /\
             v' + on_loan (snd (return_book s mid b)) bid
             = v + on_loan s bid.
Proof.
  intros [Hnd _] Hv. unfold return_book, Gateway.open_by_pair_limit1.
  destruct (filter (Gateway.open_for mid b) (borrow_records s))
    as [|r rest] eqn:Hopen; cbn [firstn]; [exists v; now split|].
  assert (Hr : In r (borrow_records s) /\ Gateway.open_for mid b r = true).
  { apply filter_In. rewrite Hopen. now left. }
  destruct Hr as [Hrin Hrop]. unfold Gateway.open_for in Hrop.
  apply andb_true_iff in Hrop. destruct Hrop as [Hrpair Hropen].
  apply andb_true_iff in Hrpair. destruct Hrpair as [_ Hrb].
  set (s1 := Gateway.update_return_date s (record_id r)).
  assert (Hloan : on_loan s bid
                  = (if b =? bid then 1 else 0) + on_loan s1 bid).
  { unfold on_loan, Gateway.open_by_book, s1. simpl.
    rewrite (close_book_counts bid (clock s) r _ Hnd Hrin Hropen).
    apply Z.eqb_eq in Hrb. rewrite Hrb.
    destruct (b =? bid); lia. }
  assert (Hv1 : stock_of s1 bid = Some v) by exact Hv.
  destruct (Gateway.select_books s1 b) as [|bk l] eqn:Hsel; cbn [snd].
  - exists v. split; [exact Hv1|].
    destruct (Z.eq_dec b bid) as [Heq | Hne].
    + subst b. unfold stock_of in Hv1. rewrite Hsel in Hv1. discriminate.
    + assert (En : (b =? bid) = false) by now apply Z.eqb_neq.
      rewrite En in Hloan. lia.
  - change (on_loan (snd (Gateway.update_stock s1 b (stock bk + 1))) bid)
      with (on_loan s1 bid).
    destruct (Z.eq_dec b bid) as [Heq | Hne].
    + subst b. rewrite Z.eqb_refl in Hloan.
      assert (Hbk : stock bk = v).
      { unfold stock_of in Hv1. rewrite Hsel in Hv1. now injection Hv1. }
      exists (stock bk + 1). split; [|lia].
      apply stock_of_update_same. rewrite Hv1. discriminate.
    + assert (En : (b =? bid) = false) by now apply Z.eqb_neq.
      rewrite En in Hloan. exists v. split; [|lia].
      rewrite stock_of_update_other; [exact Hv1 | congruence].
Qed.

(** Borrowing and returning move copies between the shelf and the members
    and neither create nor lose any: over any sequence of borrows and
    returns, of any members and any books, the stock of a book plus the
    number of its open records stays what it was (record ids being
    unique). *)
Theorem circulation_conserves_copies
        (ops : list op) (s : Store) (bid v : Z) :
  record_ids_ok s -> Forall is_circulation ops ->
  stock_of s bid = Some v ->
  exists v', stock_of (run_ops ops s) bid = Some v' /\
             v' + on_loan (run_ops ops s) bid = v + on_loan s bid.
Proof.
  unfold run_ops. revert s v.
  induction ops as [|o ops IH]; intros s v Hok Hops Hv; simpl.
  - exists v. now split.
  - inversion Hops as [|o' ops' Ho Hrest]; subst.
    assert (Hstep : exists v1, stock_of (run_op o s) bid = Some v1 /\
                               v1 + on_loan (run_op o s) bid
                               = v + on_loan s bid).
    { destruct o as [n e|t a c st|b w|m e|m|b|ok m b|m b];
        try (now destruct Ho).
      - destruct ok; [|now destruct Ho].
        exact (borrow_conserves s m b bid v Hv).
      - exact (return_conserves s m b bid v Hok Hv). }
    destruct Hstep as (v1 & Hv1 & Hsum).
    destruct (IH (run_op o s) v1 (record_ids_ok_run_op o s Hok) Hrest Hv1)
      as (v' & Hv' & Hsum').
    exists v'. split; [exact Hv' | lia].
Qed.

Lemma circulation_conserves_copies_witness :
  let ops := [OpBorrow true 1 1; OpReturn 2 1; OpReturn 1 1;
              OpBorrow true 2 1; OpBorrow true 1 1] in
  exists v', stock_of (run_ops ops store1) 1 = Some v' /\
             v' + on_loan (run_ops ops store1) 1 = 1 + on_loan store1 1.
Proof.
  intros ops.
  apply (circulation_conserves_copies ops store1 1 1).
  - split; simpl; constructor.
  - repeat constructor.
  - reflexivity.
Defined.

(** ** Interleaved borrowers and the sign of the stock *)

Lemma borrow_step_keeps (mid bid : Z) (pc : Interleaving.borrow_pc)
      (s : Store) :
  pc_ok pc -> stock_nonneg s ->
  pc_ok (fst (Interleaving.borrow_step mid bid pc s)) /\
  stock_nonneg (snd (Interleaving.borrow_step mid bid pc s)).
Proof.
  intros Hpc Hs. destruct pc as [|seen| |res]; simpl.
  - destruct (Gateway.select_books s bid) as [|b l]; [now split|].
    destruct (stock b <=? 0) eqn:E; [now split|].
    apply Z.leb_gt in E. now split.
  - simpl in Hpc. split; [exact I|].
    apply stock_nonneg_update; [exact Hs | lia].
  - now split.
  - now split.
Qed.

(** Interleaving can lend more copies than there are, but it cannot drive a
    stock below zero: under every schedule of the store calls of two callers
    of [borrow_book], every stock stays non-negative (each write is a value
    that passed the check of line 89, minus one). *)
Theorem interleaved_borrows_keep_stock_nonneg
        (midA midB bid : Z) (sched : list Interleaving.caller) (s : Store) :
  stock_nonneg s ->
  stock_nonneg (Interleaving.shared
                  (Interleaving.run_two midA midB bid sched s)).
Proof.
  intros Hs. unfold Interleaving.run_two.
  assert (Hinv : forall c,
             pc_ok (Interleaving.pcA c) -> pc_ok (Interleaving.pcB c) ->
             stock_nonneg (Interleaving.shared c) ->
             stock_nonneg
               (Interleaving.shared
                  (fold_left
                     (fun c who =>
                        Interleaving.step_two midA midB bid who c)
                     sched c))).
  { induction sched as [|who sched IH]; intros c HA HB Hc; simpl;
      [exact Hc|].
    destruct c as [a b st]. simpl in HA, HB, Hc.
    destruct who; unfold Interleaving.step_two; simpl.
    - destruct (borrow_step_keeps midA bid a st HA Hc) as [Hpc' Hs'].
      destruct (Interleaving.borrow_step midA bid a st) as [pc' s'].
      now apply IH.
    - destruct (borrow_step_keeps midB bid b st HB Hc) as [Hpc' Hs'].
      destruct (Interleaving.borrow_step midB bid b st) as [pc' s'].
      now apply IH. }
  apply Hinv; simpl; auto.
Qed.

Lemma interleaved_borrows_keep_stock_nonneg_witness :
  stock_nonneg
    (Interleaving.shared
       (Interleaving.run_two
          1 2 1
          [Interleaving.CallerA; Interleaving.CallerB; Interleaving.CallerB;
           Interleaving.CallerA; Interleaving.CallerA; Interleaving.CallerB]
          store1)).
Proof.
  apply interleaved_borrows_keep_stock_nonneg.
  unfold stock_nonneg, store1. simpl. repeat constructor. simpl. lia.
Defined.

(** ** Updates and deletes of an id that is not there *)

Lemma map_id_on {A : Type} (f : A -> A) (l : list A) :
  (forall x, In x l -> f x = x) -> map f l = l.
Proof.
  intros H. induction l as [|x l IH]; simpl; [reflexivity|].
  rewrite (H x (or_introl eq_refl)). f_equal. apply IH.
  intros y Hy. apply H. now right.
Qed.

Lemma filter_all {A : Type} (f : A -> bool) (l : list A) :
  (forall x, In x l -> f x = true) -> filter f l = l.
Proof.
  intros H. induction l as [|x l IH]; simpl; [reflexivity|].
  rewrite (H x (or_introl eq_refl)). f_equal. apply IH.
  intros y Hy. apply H. now right.
Qed.

(** [update_book_stock] and [update_member_email] on an id that no row has
    report no row updated (an empty list) and change nothing; no error is
    raised. *)
Theorem update_of_missing_id_is_noop
        (s : Store) (id v : Z) (e : string) :
  ((forall b, In b (books s) -> book_id b <> id) ->
   update_book_stock s id v = ([], s)) /\
  ((forall m, In m (members s) -> member_id m <> id) ->
   update_member_email s id e = ([], s)).
Proof.
  split.
  - intros Hnone. unfold update_book_stock, Gateway.update_stock.
    rewrite (proj2 (select_books_nil s id) Hnone). simpl. f_equal.
    destruct s as [bs ms rs nb nm nr ck]. unfold set_books. simpl in *.
    f_equal. apply map_id_on. intros b Hb.
    assert (E : (book_id b =? id) = false) by (apply Z.eqb_neq; auto).
    now rewrite E.
  - intros Hnone. unfold update_member_email, Gateway.update_email.
    assert (Hsel : filter (fun m => member_id m =? id) (members s) = []).
    { apply filter_nil_iff. intros m Hm. apply Z.eqb_neq. auto. }
    rewrite Hsel. simpl. f_equal.
    destruct s as [bs ms rs nb nm nr ck]. unfold set_members. simpl in *.
    f_equal. apply map_id_on. intros m Hm.
    assert (E : (member_id m =? id) = false) by (apply Z.eqb_neq; auto).
    now rewrite E.
Qed.

Lemma update_of_missing_id_is_noop_witness :
  update_book_stock store1 7 3 = ([], store1) /\
  update_member_email store1 7 "x@example.org" = ([], store1).
Proof.
  split.
  - apply (proj1 (update_of_missing_id_is_noop store1 7 3 EmptyString)).
    simpl. intros b [Hb | []]. subst b. simpl. lia.
  - apply (proj2 (update_of_missing_id_is_noop store1 7 3 "x@example.org")).
    simpl. intros m [Hm | [Hm | []]]; subst m; simpl; lia.
Defined.

(** [delete_member] and [delete_book] of an id that no row has, and that no
    open record refers to, print that the row was deleted and change
    nothing: a missing id is not reported. *)
Theorem delete_of_missing_id_reports_deleted (s : Store) (id : Z) :
  ((forall b, In b (books s) -> book_id b <> id) ->
   Gateway.open_by_book s id = [] ->
   delete_book s id = (Deleted, s)) /\
  ((forall m, In m (members s) -> member_id m <> id) ->
   Gateway.open_by_member s id = [] ->
   delete_member s id = (Deleted, s)).
Proof.
  split.
  - intros Hnone Hopen. unfold delete_book. rewrite Hopen. f_equal.
    destruct s as [bs ms rs nb nm nr ck].
    unfold Gateway.delete_books, set_books. simpl in *.
    f_equal. apply filter_all. intros b Hb.
    apply negb_true_iff, Z.eqb_neq. auto.
  - intros Hnone Hopen. unfold delete_member. rewrite Hopen. f_equal.
    destruct s as [bs ms rs nb nm nr ck].
    unfold Gateway.delete_members, set_members. simpl in *.
    f_equal. apply filter_all. intros m Hm.
    apply negb_true_iff, Z.eqb_neq. auto.
Qed.

Lemma delete_of_missing_id_reports_deleted_witness :
  delete_book store1 7 = (Deleted, store1) /\
  delete_member store1 7 = (Deleted, store1).
Proof.
  split.
  - apply (proj1 (delete_of_missing_id_reports_deleted store1 7)).
    + simpl. intros b [Hb | []]. subst b. simpl. lia.
    + reflexivity.
  - apply (proj2 (delete_of_missing_id_reports_deleted store1 7)).
    + simpl. intros m [Hm | [Hm | []]]; subst m; simpl; lia.
    + reflexivity.
Defined.

(** [update_member_email] rewrites the email of the members with the id and
    nothing else: the members table holds the same (id, name) pairs as
    before, whatever order the store lists them in, the rows of the members
    with another id, the books and the borrow records are as before, and the
    rows it returns carry the new email. *)
Theorem update_member_email_only_email (s : Store) (mid : Z) (e : string) :
  let s' := snd (update_member_email s mid e) in
  Permutation (map (fun m => (member_id m, name m)) (members s'))
              (map (fun m => (member_id m, name m)) (members s)) /\
  (forall m, In m (members s) -> member_id m <> mid -> In m (members s')) /\
  (forall m, In m (members s') -> member_id m = mid -> email m = e) /\
  Forall (fun m => member_id m = mid /\ email m = e)
         (fst (update_member_email s mid e)) /\
  books s' = books s /\ borrow_records s' = borrow_records s.
Proof.
  unfold update_member_email, Gateway.update_email. simpl.
  split; [|split; [|split; [|split; [|split; reflexivity]]]].
  - rewrite map_map.
    rewrite (map_ext _ (fun m => (member_id m, name m)));
      [reflexivity|].
    intros m. now destruct (member_id m =? mid).
  - intros m Hin Hne. apply in_map_iff. exists m. split; [|exact Hin].
    apply Z.eqb_neq in Hne. now rewrite Hne.
  - intros m Hin Hid. apply in_map_iff in Hin.
    destruct Hin as (m0 & Hm0 & _).
    destruct (member_id m0 =? mid) eqn:E; subst m; [reflexivity|].
    apply Z.eqb_neq in E. contradiction.
  - rewrite Forall_forall. intros m Hin. apply in_map_iff in Hin.
    destruct Hin as (m0 & Hm0 & Hin0). apply filter_In in Hin0.
    destruct Hin0 as [_ Hid]. apply Z.eqb_eq in Hid. subst m. now split.
Qed.

Lemma update_member_email_only_email_witness :
  In (mkMember 2 "Bob" "bob@example.org")
     (members (snd (update_member_email store1 1 "new@example.org"))) /\
  (forall m,
      In m (members (snd (update_member_email store1 1 "new@example.org"))) ->
      member_id m = 1 -> email m = "new@example.org"%string).
Proof.
  destruct (update_member_email_only_email store1 1 "new@example.org")
    as (_ & Hother & Hnew & _).
  split.
  - apply Hother; simpl; [tauto | lia].
  - exact Hnew.
Defined.

(** ** When the report of the most borrowed books fails, and its size *)

Lemma count_rows_none (rows : list (Z * option (string * string)))
      (acc : list (report_key * Z)) :
  count_rows rows acc = None <-> exists bid, In (bid, None) rows.
Proof.
  revert acc. induction rows as [|[bid [[t a]|]] rows IH]; intros acc; simpl.
  - split; [discriminate | intros (bid & [])].
  - rewrite IH. split.
    + intros (b & Hb). exists b. now right.
    + intros (b & [Hb | Hb]); [discriminate | now exists b].
  - split; [|reflexivity]. intros _. exists bid. now left.
Qed.

(** [report_top_borrowed] fails (line 122 raises on the null book) exactly
    when some borrow record refers to a book id that no row of the books
    table has, whatever the limit; with no borrow record at all it prints
    the empty table. *)
Theorem report_top_borrowed_fails_iff_book_missing
        (s : Store) (limit : option Z) :
  (report_top_borrowed s limit = None <->
   exists r, In r (borrow_records s) /\
             forall b, In b (books s) -> book_id b <> rec_book_id r) /\
  (borrow_records s = [] -> report_top_borrowed s limit = Some []).
Proof.
  split.
  - unfold report_top_borrowed.
    destruct (count_rows (Gateway.select_with_book s) []) as [counts|] eqn:E.
    + split; [discriminate|]. intros (r & Hin & Hnone).
      assert (Hn : count_rows (Gateway.select_with_book s) [] = None).
      { apply count_rows_none. exists (rec_book_id r).
        unfold Gateway.select_with_book. apply in_map_iff. exists r.
        split; [|exact Hin].
        now rewrite (proj2 (select_books_nil s (rec_book_id r)) Hnone). }
      congruence.
    + split; [|reflexivity]. intros _.
      apply count_rows_none in E. destruct E as (bid & Hbid).
      unfold Gateway.select_with_book in Hbid. apply in_map_iff in Hbid.
      destruct Hbid as (r & Hr & Hin). exists r. split; [exact Hin|].
      apply select_books_nil.
      destruct (Gateway.select_books s (rec_book_id r));
        [reflexivity | discriminate].
  - intros Hnil. unfold report_top_borrowed, Gateway.select_with_book.
    rewrite Hnil. simpl. unfold slice_to. simpl.
    destruct limit as [n|]; [|reflexivity].
    destruct (0 <=? n); now rewrite firstn_nil.
Qed.

Lemma report_top_borrowed_fails_iff_book_missing_witness :
  report_top_borrowed (set_books store_report []) None = None /\
  report_top_borrowed store1 None = Some [].
Proof.
  split.
  - apply (proj1 (report_top_borrowed_fails_iff_book_missing
                    (set_books store_report []) None)).
    exists (mkBorrowRecord 1 1 2 10 (Some 11)). split.
    + simpl. now left.
    + simpl. intros b [].
  - apply (proj2 (report_top_borrowed_fails_iff_book_missing store1 None)).
    reflexivity.
Defined.

Lemma nodup_map_inj {A B : Type}
      (decA : forall x y : A, {x = y} + {x <> y})
      (decB : forall x y : B, {x = y} + {x <> y})
      (f : A -> B) (l : list A) :
  (forall x y, f x = f y -> x = y) ->
  nodup decB (map f l) = map f (nodup decA l).
Proof.
  intros Hinj. induction l as [|x l IH]; simpl; [reflexivity|].
  destruct (in_dec decB (f x) (map f l)) as [Hin | Hin];
    destruct (in_dec decA x l) as [Hin' | Hin'].
  - exact IH.
  - exfalso. apply in_map_iff in Hin. destruct Hin as (y & Hy & Hyin).
    apply Hinj in Hy. subst y. contradiction.
  - exfalso. apply Hin. now apply in_map.
  - simpl. now rewrite IH.
Qed.

(** The lines before the slice: one per book that has a record. *)
Lemma report_lines_length (s : Store) :
  List.length
    (sorted_desc
       (count_keys (map (key_of s) (map rec_book_id (borrow_records s)))))
  = List.length (nodup Z.eq_dec (map rec_book_id (borrow_records s))).
Proof.
  set (ids := map rec_book_id (borrow_records s)).
  rewrite (Permutation_length (sorted_desc_perm _)).
  destruct (keys_count_keys (map (key_of s) ids)) as (Hnd & Hin & _).
  rewrite <- (length_map fst).
  rewrite (Permutation_length
             (NoDup_Permutation Hnd
                (NoDup_nodup key_eq_dec (map (key_of s) ids))
                (fun k => iff_trans (Hin k)
                            (iff_sym (nodup_In key_eq_dec _ k))))).
  rewrite (nodup_map_inj Z.eq_dec key_eq_dec (key_of s) ids (key_of_inj s)).
  apply length_map.
Qed.

(** The number of lines of the report: with [n] books that have a record,
    a limit that is not negative gives the smaller of the limit and [n]
    lines; a negative limit is a slice from the end and gives [n + limit]
    lines, none when that is negative. *)
Theorem report_top_borrowed_line_count (s : Store) (limit : Z) :
  records_joinable s ->
  exists res,
    report_top_borrowed s (Some limit) = Some res /\
    Z.of_nat (List.length res)
    = let n := Z.of_nat
                 (List.length
                    (nodup Z.eq_dec (map rec_book_id (borrow_records s)))) in
      if 0 <=? limit then Z.min limit n else Z.max 0 (n + limit).
Proof.
  intros Hjoin.
  unfold report_top_borrowed, Gateway.select_with_book.
  rewrite (count_rows_joinable s (borrow_records s) [] Hjoin).
  fold (count_keys (map (key_of s) (map rec_book_id (borrow_records s)))).
  eexists. split; [reflexivity|].
  unfold slice_to. cbv zeta. rewrite <- report_lines_length.
  destruct (0 <=? limit) eqn:E.
  - apply Z.leb_le in E. rewrite length_firstn. lia.
  - apply Z.leb_gt in E. rewrite length_firstn. lia.
Qed.

Lemma report_top_borrowed_line_count_witness :
  exists res,
    report_top_borrowed store_report (Some (-1)) = Some res /\
    Z.of_nat (List.length res) = 2.
Proof.
  assert (Hjoin : records_joinable store_report).
  { unfold records_joinable. simpl. repeat constructor; discriminate. }
  destruct (report_top_borrowed_line_count store_report (-1) Hjoin)
    as (res & Hres & Hlen).
  exists res. split; [exact Hres | exact Hlen].
Defined.

(** ** What the read functions show after a change *)

Lemma table_or_snoc {A : Type} (l : list A) (x : A) (msg : string) :
  table_or (l ++ [x]) msg = Table (l ++ [x]).
Proof. now destruct l. Qed.

Lemma table_or_text {A : Type} (l : list A) (msg : string) :
  table_or l msg = Text msg <-> l = [].
Proof. destruct l; simpl; split; congruence. Qed.

(** [list_books] prints "(no books)" exactly when the books table is empty;
    right after [add_book] it prints the earlier rows followed by the new
    book, which has the next id of the table and, when no stock was given,
    stock 1. *)
Theorem list_books_after_add_book
        (s : Store) (t a c : string) (st : option Z) :
  (list_books s = Text "(no books)" <-> books s = []) /\
  list_books (snd (add_book s t a c st))
  = Table (books s
           ++ [mkBook (next_book_id s) t a c
                      (match st with Some v => v | None => 1 end)]).
Proof.
  split.
  - apply table_or_text.
  - unfold list_books, add_book. simpl. apply table_or_snoc.
Qed.

(** After a successful [borrow_book], [show_member] lists the member's
    earlier history followed by the new loan (the next record id, the book,
    the store's clock as borrow date, no return date); the history of every
    other member and the member rows shown are as before. *)
Theorem show_member_after_borrow (s : Store) (mid bid v : Z) :
  stock_of s bid = Some v -> 0 < v ->
  let s' := snd (borrow_book s mid bid) in
  snd (show_member s' mid)
  = Table (select_history s mid ++ [(next_record_id s, bid, clock s, None)]) /\
  (forall m, m <> mid -> snd (show_member s' m) = snd (show_member s m)) /\
  (forall m, fst (show_member s' m) = fst (show_member s m)).
Proof.
  intros Hv Hpos.
  destruct (stock_of_some s bid v Hv) as (b & l & Hsel & Hst). subst v.
  unfold borrow_book.
  rewrite (borrow_book_gw_run true s mid bid b l Hsel Hpos).
  cbn [snd]. cbv zeta. unfold show_member, select_history. cbn [snd fst].
  simpl borrow_records. split; [|split].
  - rewrite filter_app, map_app. simpl. rewrite Z.eqb_refl. simpl.
    apply table_or_snoc.
  - intros m Hne. rewrite filter_app, map_app. simpl.
    assert (E : (mid =? m) = false) by (apply Z.eqb_neq; congruence).
    rewrite E. simpl. now rewrite app_nil_r.
  - reflexivity.
Qed.

Lemma show_member_after_borrow_witness :
  snd (show_member (snd (borrow_book store_history 1 1)) 1)
  = Table [(1, 1, 50, Some 60); (2, 1, 100, None)].
Proof.
  apply (show_member_after_borrow store_history 1 1 1).
  - reflexivity.
  - lia.
Defined.

(** [delete_member] removes the member row only: once it has succeeded,
    [show_member] prints "Not found" for the member and still lists the
    member's borrow history, all of it returned loans. *)
Theorem show_member_after_delete (s : Store) (mid : Z) :
  fst (delete_member s mid) = Deleted ->
  let s' := snd (delete_member s mid) in
  fst (show_member s' mid) = Text "Not found" /\
  snd (show_member s' mid) = snd (show_member s mid) /\
  Forall (fun row : history_row => snd row <> None) (select_history s mid).
Proof.
  unfold delete_member.
  destruct (Gateway.open_by_member s mid) as [|r l] eqn:Hopen;
    [|discriminate].
  intros _. cbn [snd]. cbv zeta. split; [|split].
  - unfold show_member, select_member. cbn [fst]. simpl members.
    apply table_or_text. apply filter_nil_iff. intros m Hm.
    apply filter_In in Hm. destruct Hm as [_ Hm].
    apply negb_true_iff in Hm. exact Hm.
  - reflexivity.
  - unfold select_history. rewrite Forall_forall. intros row Hrow.
    apply in_map_iff in Hrow. destruct Hrow as (r & Hr & Hin).
    apply filter_In in Hin. destruct Hin as [Hin Hm]. subst row. simpl.
    unfold Gateway.open_by_member in Hopen.
    rewrite filter_nil_iff in Hopen. specialize (Hopen r Hin).
    rewrite Hm in Hopen. simpl in Hopen. unfold is_open in Hopen.
    destruct (return_date r); [discriminate | discriminate].
Qed.

Lemma show_member_after_delete_witness :
  fst (show_member (snd (delete_member store_history 1)) 1)
  = Text "Not found" /\
  snd (show_member (snd (delete_member store_history 1)) 1)
  = Table [(1, 1, 50, Some 60)].
Proof.
  destruct (show_member_after_delete store_history 1 eq_refl)
    as (Hfst & Hsnd & _).
  split; [exact Hfst | exact Hsnd].
Defined.

(** ** The overdue report *)

Lemma flat_map_nil {A B : Type} (l : list A) :
  flat_map (fun _ : A => @nil B) l = [].
Proof. induction l as [|x l IH]; simpl; [reflexivity | exact IH]. Qed.

(** A record that the condition of the query rejects gives no row. *)
Lemma overdue_rows_closed (day : Z) (s : Store) (r : BorrowRecord) :
  overdue_where day s r = false -> overdue_rows_of day s r = [].
Proof.
  intros Hw. unfold overdue_rows_of. rewrite Hw.
  rewrite (flat_map_ext _ (fun _ => []));
    [apply flat_map_nil | intros m; apply flat_map_nil].
Qed.

(** A row is in the overdue report exactly when it comes from a record that
    is open, was borrowed more than fourteen days before the store's clock,
    and whose member and book rows exist. *)
Lemma overdue_query_in (day : Z) (s : Store) (row : overdue_row) :
  In row (overdue_query day s) <->
  exists r m b,
    In r (borrow_records s) /\ In m (members s) /\ In b (books s) /\
    member_id m = rec_member_id r /\ book_id b = rec_book_id r /\
    return_date r = None /\ borrow_date r < clock s - 14 * day /\
    row = (member_id m, name m, email m, title b, borrow_date r).
Proof.
  unfold overdue_query, overdue_rows_of. rewrite in_flat_map. split.
  - intros (r & Hr & Hrow). rewrite in_flat_map in Hrow.
    destruct Hrow as (m & Hm & Hrow). rewrite in_flat_map in Hrow.
    destruct Hrow as (b & Hb & Hrow).
    apply filter_In in Hm. destruct Hm as [Hm Hmid].
    apply filter_In in Hb. destruct Hb as [Hb Hbid].
    apply Z.eqb_eq in Hmid, Hbid.
    destruct (overdue_where day s r) eqn:Hw; [|destruct Hrow].
    destruct Hrow as [Hrow | []].
    unfold overdue_where in Hw. apply andb_true_iff in Hw.
    destruct Hw as [Hopen Hold]. apply Z.ltb_lt in Hold.
    exists r, m, b. repeat split; try assumption; [|now symmetry].
    unfold is_open in Hopen. now destruct (return_date r).
  - intros (r & m & b & Hr & Hm & Hb & Hmid & Hbid & Hopen & Hold & Hrow).
    exists r. split; [exact Hr|]. rewrite in_flat_map.
    exists m. split; [apply filter_In; split; [exact Hm | lia]|].
    rewrite in_flat_map.
    exists b. split; [apply filter_In; split; [exact Hb | lia]|].
    assert (Hw : overdue_where day s r = true).
    { unfold overdue_where, is_open. rewrite Hopen.
      now apply Z.ltb_lt. }
    rewrite Hw. left. now symmetry.
Qed.

(** [report_overdue_members] prints "(no overdue)" when every open loan was
    borrowed at most fourteen days before the store's clock: the comparison
    of the query is strict, so a loan of exactly fourteen days is not
    overdue, and a returned loan never is, however old. *)
Theorem no_overdue_within_fourteen_days (day : Z) (s : Store) :
  (forall r, In r (borrow_records s) -> return_date r = None ->
             clock s - 14 * day <= borrow_date r) ->
  report_overdue_members day s = Text "(no overdue)".
Proof.
  intros Hall. unfold report_overdue_members. apply table_or_text.
  destruct (overdue_query day s) as [|row rows] eqn:E; [reflexivity|].
  assert (Hrow : In row (overdue_query day s)) by (rewrite E; now left).
  apply overdue_query_in in Hrow.
  destruct Hrow as (r & m & b & Hr & _ & _ & _ & _ & Hopen & Hold & _).
  specialize (Hall r Hr Hopen). lia.
Qed.

Lemma no_overdue_within_fourteen_days_witness :
  let s := mkStore (books store1) (members store1)
                   [mkBorrowRecord 1 1 1 86 None;
                    mkBorrowRecord 2 2 1 10 (Some 12)]
                   2 3 3 100 in
  report_overdue_members 1 s = Text "(no overdue)".
Proof.
  intros s. apply no_overdue_within_fourteen_days.
  simpl. intros r [Hr | [Hr | []]] Hopen; subst r; simpl in *.
  - lia.
  - discriminate.
Defined.

Lemma books_join_titles {B : Type} (g : string -> list B) (bid : Z)
      (bs : list Book) :
  flat_map (fun b => g (title b)) (filter (fun b => book_id b =? bid) bs)
  = flat_map (fun p => g (snd p))
             (filter (fun p => fst p =? bid)
                     (map (fun b => (book_id b, title b)) bs)).
Proof.
  induction bs as [|b bs IH]; simpl; [reflexivity|].
  destruct (book_id b =? bid); simpl; now rewrite IH.
Qed.

(** The overdue report reads the clock, the members, the ids and titles of
    the books and the borrow records, and nothing else. *)
Lemma overdue_query_ext (day : Z) (s1 s2 : Store) :
  clock s1 = clock s2 -> members s1 = members s2 ->
  map (fun b => (book_id b, title b)) (books s1)
  = map (fun b => (book_id b, title b)) (books s2) ->
  borrow_records s1 = borrow_records s2 ->
  overdue_query day s1 = overdue_query day s2.
Proof.
  intros Hck Hms Hbs Hrs. unfold overdue_query, overdue_rows_of.
  rewrite Hrs.
  apply flat_map_ext. intros r.
  unfold select_member. rewrite Hms. apply flat_map_ext. intros m.
  unfold overdue_where, Gateway.select_books. rewrite Hck.
  rewrite (books_join_titles
             (fun t => if is_open r && (borrow_date r <? clock s2 - 14 * day)
                       then [(member_id m, name m, email m, t,
                              borrow_date r)]
                       else [])
             (rec_book_id r) (books s1)).
  rewrite (books_join_titles
             (fun t => if is_open r && (borrow_date r <? clock s2 - 14 * day)
                       then [(member_id m, name m, email m, t,
                              borrow_date r)]
                       else [])
             (rec_book_id r) (books s2)).
  now rewrite Hbs.
Qed.

Lemma overdue_rows_close (day : Z) (s : Store) (rid t : Z)
      (l : list BorrowRecord) :
  flat_map (overdue_rows_of day s) (map (Gateway.close_if rid t) l)
  = flat_map (overdue_rows_of day s)
             (filter (fun r => negb (record_id r =? rid)) l).
Proof.
  induction l as [|x l IH]; [reflexivity|].
  cbn [map filter flat_map]. unfold Gateway.close_if at 1.
  destruct (record_id x =? rid); cbn [negb flat_map].
  - rewrite (overdue_rows_closed day s (Gateway.close_at t x));
      [exact IH | reflexivity].
  - now rewrite IH.
Qed.

(** Closing the records with an id takes their rows, and no other row, out
    of the overdue report. *)
Lemma overdue_query_close (day : Z) (s : Store) (rid : Z) :
  overdue_query day (Gateway.update_return_date s rid)
  = overdue_query
      day
      (set_borrow_records
         s (filter (fun r => negb (record_id r =? rid)) (borrow_records s))).
Proof.
  exact (overdue_rows_close day s rid (clock s) (borrow_records s)).
Qed.

(** A successful [return_book] takes the returned loan out of the overdue
    report and leaves the rest of the report as it was: the report after the
    return is the report of the store without the record that was closed
    (the stock written by the return plays no part). *)
Theorem return_takes_loan_out_of_overdue
        (day : Z) (s : Store) (mid bid rid : Z) :
  fst (return_book s mid bid) = ReturnSuccessful rid ->
  overdue_query day (snd (return_book s mid bid))
  = overdue_query
      day
      (set_borrow_records
         s (filter (fun r => negb (record_id r =? rid)) (borrow_records s))).
Proof.
  unfold return_book.
  destruct (Gateway.open_by_pair_limit1 s mid bid) as [|r rest];
    [discriminate|].
  destruct (Gateway.select_books
              (Gateway.update_return_date s (record_id r)) bid)
    as [|bk l]; [discriminate|].
  cbn [fst snd]. intros Hrid. injection Hrid as Hrid. subst rid.
  rewrite <- overdue_query_close.
  apply overdue_query_ext; try reflexivity.
  simpl. rewrite map_map. apply map_ext. intros b.
  now destruct (book_id b =? bid).
Qed.

Lemma return_takes_loan_out_of_overdue_witness :
  overdue_query 1 store_two_open
  = [(1, "Ann"%string, "ann@example.org"%string, "Dune"%string, 20);
     (1, "Ann"%string, "ann@example.org"%string, "Dune"%string, 10)] /\
  overdue_query 1 (snd (return_book store_two_open 1 1))
  = [(1, "Ann"%string, "ann@example.org"%string, "Dune"%string, 10)].
Proof.
  split; [reflexivity|].
  now rewrite (return_takes_loan_out_of_overdue 1 store_two_open 1 1 1).
Defined.

(** ** The report of borrows per member *)

Lemma insert_total_perm (x : member_key * Z) (l : list (member_key * Z)) :
  Permutation (insert_total x l) (x :: l).
Proof.
  induction l as [|y l IH]; simpl; [reflexivity|].
  destruct (snd y <=? snd x); [reflexivity|].
  rewrite IH. apply perm_swap.
Qed.

Lemma order_by_total_desc_perm (l : list (member_key * Z)) :
  Permutation (order_by_total_desc l) l.
Proof.
  induction l as [|x l IH]; simpl; [reflexivity|].
  rewrite insert_total_perm. now apply perm_skip.
Qed.

Lemma insert_total_sorted (x : member_key * Z) (l : list (member_key * Z)) :
  StronglySorted (fun a b => snd b <= snd a) l ->
  StronglySorted (fun a b => snd b <= snd a) (insert_total x l).
Proof.
  intros Hs. induction Hs as [|y l Hl IH Hy]; simpl.
  - repeat constructor.
  - destruct (snd y <=? snd x) eqn:E.
    + apply Z.leb_le in E. constructor; [now constructor|].
      constructor; [exact E|].
      rewrite Forall_forall in *. intros z Hz. specialize (Hy z Hz). lia.
    + apply Z.leb_gt in E. constructor; [exact IH|].
      rewrite Forall_forall in *. intros z Hz.
      apply (Permutation_in _ (insert_total_perm x l)) in Hz.
      destruct Hz as [Hz | Hz]; [subst z; lia | now apply Hy].
Qed.

Lemma order_by_total_desc_sorted (l : list (member_key * Z)) :
  StronglySorted (fun a b => snd b <= snd a) (order_by_total_desc l).
Proof.
  induction l as [|x l IH]; simpl; [constructor|].
  now apply insert_total_sorted.
Qed.

Lemma select_member_unique (s : Store) (m : Member) :
  member_ids_ok s -> In m (members s) ->
  select_member s (member_id m) = [m].
Proof.
  unfold member_ids_ok, select_member.
  induction (members s) as [|x l IH]; intros Hnd Hin; [destruct Hin|].
  simpl in Hnd. inversion Hnd as [|i ids Hx Hl]; subst. simpl.
  destruct Hin as [Heq | Hin].
  - subst x. rewrite Z.eqb_refl. f_equal.
    apply filter_nil_iff. intros y Hy. apply Z.eqb_neq. intros Heq.
    apply Hx. rewrite <- Heq. now apply in_map.
  - assert (E : (member_id x =? member_id m) = false).
    { apply Z.eqb_neq. intros Heq. apply Hx. rewrite Heq.
      now apply in_map. }
    rewrite E. now apply IH.
Qed.

(** With unique member ids, the rows of the join that carry a member are
    the borrow records of the member. *)
Lemma joined_member_keys_count (s : Store) (m : Member) :
  member_ids_ok s -> In m (members s) ->
  count_occ member_key_eq_dec (joined_member_keys s) (member_id m, name m)
  = List.length
      (filter (fun r => rec_member_id r =? member_id m) (borrow_records s)).
Proof.
  intros Hok Hin. unfold joined_member_keys, member_key.
  induction (borrow_records s) as [|r l IH]; [reflexivity|].
  simpl flat_map. rewrite count_occ_app, IH. cbn [filter].
  destruct (rec_member_id r =? member_id m) eqn:E.
  - apply Z.eqb_eq in E. rewrite E, (select_member_unique s m Hok Hin).
    cbn [map List.length]. rewrite count_occ_cons_eq by reflexivity.
    reflexivity.
  - apply Z.eqb_neq in E.
    rewrite (proj1 (count_occ_not_In member_key_eq_dec _ _));
      [reflexivity|].
    intros Hk. apply in_map_iff in Hk. destruct Hk as (m' & Hm' & Hin').
    apply filter_In in Hin'. destruct Hin' as [_ Hid].
    apply Z.eqb_eq in Hid. injection Hm' as Hi _. congruence.
Qed.

(** [report_borrows_per_member] lists the members by descending total; the
    total of a member is the number of the member's borrow records, open
    and returned alike; a member without any borrow record has no line, and
    there is no line for a record whose member row is gone (member ids
    being unique). *)
Theorem borrows_per_member_totals (s : Store) :
  member_ids_ok s ->
  StronglySorted (fun a b => snd b <= snd a) (borrows_per_member_query s) /\
  (forall m c, In m (members s) ->
     (In ((member_id m, name m), c) (borrows_per_member_query s) <->
      c = Z.of_nat
            (List.length
               (filter (fun r => rec_member_id r =? member_id m)
                       (borrow_records s))) /\
      0 < c)) /\
  (forall k c, In (k, c) (borrows_per_member_query s) ->
     exists m, In m (members s) /\ k = (member_id m, name m)).
Proof.
  intros Hok. unfold borrows_per_member_query.
  split; [apply order_by_total_desc_sorted|].
  assert (Hin : forall k c,
             In (k, c)
                (order_by_total_desc
                   (map (fun k0 =>
                           (k0, Z.of_nat
                                  (count_occ member_key_eq_dec
                                             (joined_member_keys s) k0)))
                        (nodup member_key_eq_dec (joined_member_keys s))))
             <-> In k (joined_member_keys s) /\
                 c = Z.of_nat (count_occ member_key_eq_dec
                                         (joined_member_keys s) k)).
  { intros k c. split.
    - intros H. apply (Permutation_in _ (order_by_total_desc_perm _)) in H.
      apply in_map_iff in H. destruct H as (k0 & Hk0 & Hnd).
      injection Hk0 as Hk Hc. subst k0. apply nodup_In in Hnd.
      split; [exact Hnd | now symmetry].
    - intros [Hk Hc].
      apply (Permutation_in
               _ (Permutation_sym (order_by_total_desc_perm _))).
      apply in_map_iff. exists k. split; [now rewrite Hc|].
      now apply nodup_In. }
  split.
  - intros m c Hm. rewrite Hin.
    rewrite <- (joined_member_keys_count s m Hok Hm).
    rewrite (count_occ_In member_key_eq_dec). split.
    + intros [Hpos Hc]. split; [exact Hc | lia].
    + intros [Hc Hpos]. split; [lia | exact Hc].
  - intros k c Hkc. apply Hin in Hkc. destruct Hkc as [Hk _].
    unfold joined_member_keys in Hk. apply in_flat_map in Hk.
    destruct Hk as (r & _ & Hk). apply in_map_iff in Hk.
    destruct Hk as (m & Hm & Hsel). apply filter_In in Hsel.
    exists m. split; [tauto | now symmetry].
Qed.

Lemma borrows_per_member_totals_witness :
  In ((1, "Ann"%string), 4) (borrows_per_member_query store_report) /\
  In ((2, "Bob"%string), 3) (borrows_per_member_query store_report).
Proof.
  assert (Hok : member_ids_ok store_report).
  { unfold member_ids_ok. simpl. repeat constructor; simpl; intuition lia. }
  destruct (borrows_per_member_totals store_report Hok) as (_ & Htot & _).
  split.
  - apply (Htot (mkMember 1 "Ann" "ann@example.org") 4).
    + simpl. tauto.
    + split; [reflexivity | lia].
  - apply (Htot (mkMember 2 "Bob" "bob@example.org") 3).
    + simpl. tauto.
    + split; [reflexivity | lia].
Defined.

(** ** A new member *)

(** [add_member] returns the row it inserted; when the id the store hands
    out is fresh, [show_member] of that id then prints exactly that row and
    "(no borrow history)". *)
Theorem show_member_after_add_member (s : Store) (n e : string) :
  (forall m, In m (members s) -> member_id m <> next_member_id s) ->
  (forall r, In r (borrow_records s) ->
             rec_member_id r <> next_member_id s) ->
  fst (add_member s n e) = [mkMember (next_member_id s) n e] /\
  show_member (snd (add_member s n e)) (next_member_id s)
  = (Table [mkMember (next_member_id s) n e], Text "(no borrow history)").
Proof.
  intros Hms Hrs. split; [reflexivity|].
  unfold add_member, show_member, select_member, select_history. simpl.
  rewrite filter_app. simpl. rewrite Z.eqb_refl.
  assert (Hm : filter (fun m => member_id m =? next_member_id s) (members s)
               = []).
  { apply filter_nil_iff. intros m Hm. apply Z.eqb_neq. now apply Hms. }
  assert (Hr : filter (fun r => rec_member_id r =? next_member_id s)
                      (borrow_records s) = []).
  { apply filter_nil_iff. intros r Hr. apply Z.eqb_neq. now apply Hrs. }
  now rewrite Hm, Hr.
Qed.

Lemma show_member_after_add_member_witness :
  show_member (snd (add_member store_report "Cy" "cy@example.org")) 3
  = (Table [mkMember 3 "Cy" "cy@example.org"], Text "(no borrow history)").
Proof.
  apply (show_member_after_add_member store_report "Cy" "cy@example.org").
  - simpl. intros m [Hm | [Hm | []]]; subst m; simpl; lia.
  - simpl. intros r Hr.
    repeat (destruct Hr as [Hr | Hr]; [subst r; simpl; lia|]).
    destruct Hr.
Defined.

Lemma list_books_after_add_book_witness :
  list_books (set_books store1 []) = Text "(no books)" /\
  list_books (snd (add_book (set_books store1 []) "Emma" "Austen" "novel"
                            None))
  = Table [mkBook 2 "Emma" "Austen" "novel" 1].
Proof.
  split.
  - now apply (proj1 (list_books_after_add_book
                        (set_books store1 []) "Emma" "Austen" "novel" None)).
  - exact (proj2 (list_books_after_add_book
                    (set_books store1 []) "Emma" "Austen" "novel" None)).
Defined.

(** ** The report of the most borrowed books, in full *)

(** The report fails exactly when some record has no book to join. *)
Lemma report_top_borrowed_none_iff (s : Store) (limit : option Z) :
  report_top_borrowed s limit = None <-> ~ records_joinable s.
Proof.
  unfold report_top_borrowed, Gateway.select_with_book. split.
  - intros Hnone Hjoin.
    rewrite (count_rows_joinable s (borrow_records s) [] Hjoin) in Hnone.
    discriminate.
  - intros Hnot.
    destruct (count_rows
                (map (fun r =>
                        (rec_book_id r,
                         match Gateway.select_books s (rec_book_id r) with
                         | b :: _ => Some (title b, author b)
                         | [] => None
                         end)) (borrow_records s)) [])
      as [counts|] eqn:E; [|reflexivity].
    exfalso. apply Hnot. unfold records_joinable.
    rewrite Forall_forall. intros r Hr Hsel.
    assert (Hn : count_rows
                   (map (fun r =>
                           (rec_book_id r,
                            match Gateway.select_books s (rec_book_id r) with
                            | b :: _ => Some (title b, author b)
                            | [] => None
                            end)) (borrow_records s)) [] = None).
    { apply count_rows_none. exists (rec_book_id r).
      apply in_map_iff. exists r. split; [|exact Hr]. now rewrite Hsel. }
    congruence.
Qed.

(** C6, as the code has it: [report_top_borrowed] with a limit that is not
    negative fails (line 122 raises) exactly when some borrow record has no
    book row to join; when every record has its book it counts all borrow
    records, open and closed, per book (one line per book id, with the
    book's title and author, the count being the number of records of the
    book), sorts the lines by descending count, lines of equal count staying
    in the order in which the books first appear among the borrow records,
    and keeps the first [limit] lines.  In particular, over such records
    giving book 1 count 3, book 2 count 3 and book 3 count 1, the report of
    limit 2 has the lines of books 1 and 2, the one whose first record comes
    first being first, and never the line of book 3. *)
Theorem report_top_borrowed_first_seen (s : Store) (limit : Z) :
  0 <= limit ->
  (report_top_borrowed s (Some limit) = None <-> ~ records_joinable s) /\
  (records_joinable s ->
   exists full,
     report_top_borrowed s (Some limit)
     = Some (firstn (Z.to_nat limit) full) /\
     NoDup (map bid_of full) /\
     (forall bid, In bid (map bid_of full)
                  <-> In bid (map rec_book_id (borrow_records s))) /\
     (forall e, In e full ->
        fst e = key_of s (bid_of e) /\
        snd e = Z.of_nat (count_occ Z.eq_dec
                                    (map rec_book_id (borrow_records s))
                                    (bid_of e))) /\
     StronglySorted
       (by_count_then_first_seen (map rec_book_id (borrow_records s)))
       full) /\
  (records_joinable s ->
   (forall i, In i (map rec_book_id (borrow_records s)) ->
              i = 1 \/ i = 2 \/ i = 3) ->
   count_occ Z.eq_dec (map rec_book_id (borrow_records s)) 1 = 3%nat ->
   count_occ Z.eq_dec (map rec_book_id (borrow_records s)) 2 = 3%nat ->
   count_occ Z.eq_dec (map rec_book_id (borrow_records s)) 3 = 1%nat ->
   exists res,
     report_top_borrowed s (Some 2) = Some res /\
     map snd res = [3; 3] /\
     ((map bid_of res = [1; 2] /\
       first_seen_before (map rec_book_id (borrow_records s)) 1 2) \/
      (map bid_of res = [2; 1] /\
       first_seen_before (map rec_book_id (borrow_records s)) 2 1))).
Proof.
  intros Hlimit. split; [|split].
  - apply report_top_borrowed_none_iff.
  - intros Hjoin. now apply report_top_borrowed_spec.
  - intros Hjoin. now apply report_top2_example.
Qed.

Lemma report_top_borrowed_first_seen_witness :
  records_joinable store_report /\
  (exists full,
     report_top_borrowed store_report (Some 2) = Some (firstn 2 full) /\
     StronglySorted
       (by_count_then_first_seen
          (map rec_book_id (borrow_records store_report))) full) /\
  (exists res,
     report_top_borrowed store_report (Some 2) = Some res /\
     map snd res = [3; 3]) /\
  report_top_borrowed (set_books store_report []) (Some 2) = None.
Proof.
  assert (Hjoin : records_joinable store_report).
  { unfold records_joinable. simpl. repeat constructor; discriminate. }
  assert (Hlimit : 0 <= 2) by lia.
  destruct (report_top_borrowed_first_seen store_report 2 Hlimit)
    as (_ & Hgen & Hex).
  split; [exact Hjoin|]. split; [|split].
  - destruct (Hgen Hjoin) as (full & Hrep & _ & _ & _ & Hsorted).
    exists full. split; [exact Hrep | exact Hsorted].
  - destruct (Hex Hjoin) as (res & Hrep & Hcounts & _).
    + simpl. intros i Hi. lia.
    + reflexivity.
    + reflexivity.
    + reflexivity.
    + exists res. split; [exact Hrep | exact Hcounts].
  - apply (proj1 (report_top_borrowed_first_seen
                    (set_books store_report []) 2 Hlimit)).
    unfold records_joinable. simpl. intros H.
    inversion H as [|r l Hr _]; subst. now apply Hr.
Defined.

(** C6 as stated fails twice.  On the tie: with three records of book 2
    listed before three records of book 1 and one of book 3, the report of
    limit 2 has the line of book 2 before the line of book 1, not books
    [1, 2] in ascending id order.  On the result: after a loan of book 1 was
    returned and the book deleted, its record has no book left and the
    report is no list at all. *)
Lemma report_tie_not_by_id_counterexample :
  map rec_book_id (borrow_records store_report) = [2; 2; 2; 1; 1; 1; 3] /\
  report_top_borrowed store_report (Some 2)
  = Some [((2, "Emma"%string, "Austen"%string), 3);
          ((1, "Dune"%string, "Herbert"%string), 3)] /\
  (forall res, report_top_borrowed store_report (Some 2) = Some res ->
               map bid_of res <> [1; 2]) /\
  report_top_borrowed
    (run_ops [OpBorrow true 1 1; OpReturn 1 1; OpDeleteBook 1] store1)
    (Some 2)
  = None.
Proof.
  split; [reflexivity|]. split; [reflexivity|]. split; [|reflexivity].
  intros res Hres. vm_compute in Hres. injection Hres as Hres.
  subst res. discriminate.
Qed.
